(** * MeteoInfoLab [meteolib/meteo.py]: formula library, EOF and varimax

    A shallow embedding of [pylib/mipylib/meteolib/meteo.py].

    - Module [Thermo]: the closed-form formulas, on Python scalars.  A Python
      float is idealised as a real number (no rounding, no overflow); the
      exceptions the scalar operators raise are kept: a float division by
      zero raises [ZeroDivisionError], [math.log] of a non-positive number
      and a fractional power of a negative number raise [ValueError].
      The reals have no range, the floats leave theirs next to the pole
      of the Bolton formula (29.65 K): [math.exp] overflows between about
      23.4 K and the pole, and underflows to zero between the pole and
      about 35.3 K.  Several theorems are therefore stated for
      temperatures of 36 K and more.
    - Module [Varimax]: the rotation loop, on matrices over an ordered
      field, with the singular value decomposition as a collaborator.
    - Module [Eof]: the missing-row masking and restoration of [eof], on
      row-major arrays with run-time shapes.
    - Module [Parcel]: [dry_lapse] on an array of pressures and
      [equivalent_potential_temperature] on scalars. *)

From mathcomp Require Import boot order ssralg ssrnum ssrint rat matrix.
From Stdlib Require Import Reals Lra ZArith Lia.

Set Implicit Arguments.
Unset Strict Implicit.
Unset Printing Implicit Defensive.

(** ** Python results: a value or a raised exception *)

Inductive pyexn : Type := ZeroDivisionError | ValueError | IndexError.

Inductive result (A : Type) : Type :=
| Ok (a : A)
| Raise (e : pyexn).

Arguments Ok {A} a.
Arguments Raise {A} e.

Definition bind {A B : Type} (r : result A) (k : A -> result B) : result B :=
  match r with
  | Ok a => k a
  | Raise e => Raise e
  end.

Notation "x <-- r ;; k" := (bind r (fun x => k))
  (at level 61, r at next level, right associativity).

(** A [for] loop whose body can raise. *)
Fixpoint foldM {A B : Type} (f : B -> A -> result B) (b : B) (s : seq A)
    : result B :=
  if s is a :: s' then b' <-- f b a ;; foldM f b' s' else Ok b.

(** ** The formula library *)

Module Thermo.

Local Open Scope R_scope.

(** *** Scalar operators of Python floats *)

(** [x / y] on floats. *)
Definition fdiv (x y : R) : result R :=
  if Req_dec_T y 0 then Raise ZeroDivisionError else Ok (x / y).

(** [np.log(x)] on a scalar, which is [math.log]. *)
Definition flog (x : R) : result R :=
  if Rlt_dec 0 x then Ok (ln x) else Raise ValueError.

(** [x ** y] on floats: [exp (y * ln x)] for a positive base; a zero base
    with a negative exponent divides by zero; a negative base needs an
    integral exponent. *)
Definition fpow (x y : R) : result R :=
  if Rlt_dec 0 x then Ok (Rpower x y)
  else if Req_dec_T x 0 then
    if Rlt_dec y 0 then Raise ZeroDivisionError
    else if Req_dec_T y 0 then Ok 1 else Ok 0
  else if Req_dec_T (frac_part y) 0 then Ok (powerRZ x (Int_part y))
  else Raise ValueError.

(** *** Module constants *)

Definition P0 : R := 1000.
(** [R] in the source: the molar gas constant (the name [R] is the type of
    real numbers here). *)
Definition R_gas : R := 8.3144598.
Definition Mw : R := 18.01528.
Definition Md : R := 28.9644.
Definition Rd : R := R_gas / Md.
Definition Lv : R := 2.501e6.
Definition Cp_d : R := 1005.
Definition epsilon : R := Mw / Md.
Definition kappa : R := 0.286.
Definition degCtoK : R := 273.15.
Definition g : R := 9.8.
Definition sat_pressure_0c : R := 6.112.

(** *** Formulas *)

Definition pressure_to_height_std (press : R) : result R :=
  let t0 := 288 in
  let gamma := 6.5 in
  let p0 := 1013.25 in
  pw <-- fpow (press / p0) (Rd * gamma / g) ;;
  let h := (t0 / gamma) * (1 - pw) * 1000 in
  Ok h.

Definition height_to_pressure_std (height : R) : result R :=
  let t0 := 288 in
  let gamma := 6.5 in
  let p0 := 1013.25 in
  let height := height * 0.001 in
  pw <-- fpow (1 - (gamma / t0) * height) (g / (Rd * gamma)) ;;
  let p := p0 * pw in
  Ok p.

Definition dewpoint (e : R) : result R :=
  val <-- flog (e / sat_pressure_0c) ;;
  fdiv (243.5 * val) (17.67 - val).

Definition saturation_vapor_pressure (temperature : R) : result R :=
  q <-- fdiv (17.67 * (temperature - 273.15)) (temperature - 29.65) ;;
  Ok (sat_pressure_0c * exp q).

Definition dewpoint_rh (temperature rh : R) : result R :=
  es <-- saturation_vapor_pressure temperature ;;
  dewpoint (rh * es).

Definition potential_temperature (pressure temperature : R) : result R :=
  q <-- fdiv P0 pressure ;;
  pw <-- fpow q kappa ;;
  Ok (temperature * pw).

Definition mixing_ratio (part_press tot_press : R) : result R :=
  fdiv (epsilon * part_press) (tot_press - part_press).

Definition saturation_mixing_ratio (tot_press temperature : R) : result R :=
  es <-- saturation_vapor_pressure temperature ;;
  mixing_ratio es tot_press.

Definition vapor_pressure (pressure mixing : R) : result R :=
  fdiv (pressure * mixing) (epsilon + mixing).

(** [a] is within absolute tolerance [tol] of [b]. *)
Definition approx (tol a b : R) : Prop := Rabs (a - b) <= tol.

(** The Bolton exponent [17.67 (T - 273.15) / (T - 29.65)] of
    [saturation_vapor_pressure]. *)
Definition bolton (T : R) : R := 17.67 * (T - 273.15) / (T - 29.65).

End Thermo.

(** ** Varimax rotation *)

Module Varimax.
Import GRing.Theory Num.Theory.
Local Open Scope ring_scope.

Section Varimax.

(** The floats, idealised as an ordered field; [x] is a [p x nc] matrix.
    Every array of the loop has the shape its operands give it, so the
    matrices carry their dimensions. *)
Variable F : realFieldType.
Variables p nc : nat.

(** [np.linalg.svd] on the [nc x nc] matrix [B]: [(U, S, Vh)]. *)
Variable svd : 'M[F]_nc -> 'M[F]_nc * 'rV[F]_nc * 'M[F]_nc.

(** [B = np.dot(x.T, (z**3 - np.dot(z, np.diag(np.squeeze(np.dot(
    np.ones((1,p)), (z**2))))) / p))] with [z = np.dot(x, TT)]. *)
Definition rotation_target (x : 'M[F]_(p, nc)) (TT : 'M[F]_nc) : 'M[F]_nc :=
  let z := x *m TT in
  x^T *m (map_mx (fun v => v ^+ 3) z
          - p%:R^-1 *: (z *m diag_mx (const_mx 1 *m map_mx (fun v => v ^+ 2) z))).

(** One pass of the loop body up to the exit test: the new [TT = U * Vh]
    and the new [d = np.sum(S)]. *)
Definition step (x : 'M[F]_(p, nc)) (TT : 'M[F]_nc) : 'M[F]_nc * F :=
  let: (U, Sv, Vh) := svd (rotation_target x TT) in
  (U *m Vh, \sum_j Sv 0 j).

(** [d < d2 * (1 + tol)], the test before [break]. *)
Definition exit_test (tol d2 d : F) : bool := d < d2 * (1 + tol).

(** [for i in range(it_max)]: the states [(TT, d)] after each iteration
    that runs, from the state [(TT, d)] before the first; the loop stops
    when the range is exhausted or after an iteration whose test holds. *)
Fixpoint iterations (x : 'M[F]_(p, nc)) (tol : F) (n : nat)
    (TT : 'M[F]_nc) (d : F) : seq ('M[F]_nc * F) :=
  if n is n'.+1 then
    let s := step x TT in
    s :: (if exit_test tol d s.2 then [::] else iterations x tol n' s.1 s.2)
  else [::].

(** The loop state before the first iteration: [TT = np.eye(nc)], [d = 0]. *)
Definition start : 'M[F]_nc * F := (1%:M, 0).

Definition varimax (x : 'M[F]_(p, nc)) (normalize : bool) (tol : F)
    (it_max : nat) : 'M[F]_(p, nc) * 'M[F]_nc :=
  let TT := (last start (iterations x tol it_max start.1 start.2)).1 in
  let r := x *m TT in
  (r, TT).

(** [A * A^T = 1] *)
Definition orthogonal (A : 'M[F]_nc) : Prop := A *m A^T = 1%:M.

(** The contract of the singular value decomposition used here: its
    factors [U] and [Vh] are orthogonal. *)
Definition svd_unitary : Prop :=
  forall B : 'M[F]_nc, orthogonal (svd B).1.1 /\ orthogonal (svd B).2.

End Varimax.

(** A 2 x 2 rational matrix, by its entries. *)
Definition mx2 (a b c d : rat) : 'M[rat]_2 :=
  \matrix_(i, j) (if (i : nat) == 0%N :> nat
                  then (if (j : nat) == 0%N :> nat then a else b)
                  else (if (j : nat) == 0%N :> nat then c else d)).

(** A rational row of length 2, by its entries. *)
Definition row2 (s t : rat) : 'rV[rat]_2 :=
  \row_j (if (j : nat) == 0%N :> nat then s else t).

(** A decomposition of 2 x 2 rational matrices with fixed orthogonal
    factors, [B = U * (U^T * B * Vh^T) * Vh]; the diagonal of the middle
    factor is returned as [S].  It is a singular value decomposition of
    every [B] whose middle factor is diagonal with entries that are not
    negative. *)
Definition svd2_U : 'M[rat]_2 :=
  mx2 (3%:Q / 5%:Q) (- (4%:Q / 5%:Q)) (4%:Q / 5%:Q) (3%:Q / 5%:Q).
Definition svd2_Vh : 'M[rat]_2 := mx2 0 1 1 0.
Definition svd2 (B : 'M[rat]_2) : 'M[rat]_2 * 'rV[rat]_2 * 'M[rat]_2 :=
  (svd2_U, \row_j (svd2_U^T *m B *m svd2_Vh^T) j j, svd2_Vh).

(** Loadings of two variables on two factors, and a tolerance. *)
Definition x2 : 'M[rat]_2 := mx2 15%:Q 20%:Q 15%:Q 0.
Definition tol2 : rat := 1%:Q / 10%:Q.

End Varimax.

(** ** Empirical orthogonal functions *)

Module Eof.

(** The element type of the arrays with the operations of the numeric
    library on it; [fnan] is the missing marker [np.nan]. *)
Record float_ops (T : Type) : Type := FloatOps {
  fzero : T;
  fone : T;
  fnan : T;
  fisnan : T -> bool;
  fadd : T -> T -> T;
  fmul : T -> T -> T;
  fdiv : T -> T -> T;
  fneg : T -> T;
  fsqrt : T -> T;
  fabs : T -> T;
  fof_nat : nat -> T
}.

Section Eof.

Variable T : Type.
Variable ops : float_ops T.

Definition vector : Type := seq T.
(** A 2-D array, as the list of its rows. *)
Definition array : Type := seq (seq T).

Definition ncols (a : array) : nat := size (head [::] a).
(** [a.shape] *)
Definition shape (a : array) : nat * nat := (size a, ncols a).
Definition has_shape (m n : nat) (a : array) : bool :=
  (size a == m) && all (fun r => size r == n) a.

(** [x.contains_nan()] *)
Definition contains_nan (x : array) : bool := has (has (fisnan ops)) x.
(** [a[i, j]] *)
Definition getitem (a : array) (i j : nat) : T :=
  nth (fnan ops) (nth [::] a i) j.
(** [np.where(x[:,0] != np.nan)[0]]: the rows whose column 0 is not the
    missing marker. *)
Definition valid_rows (x : array) : seq nat :=
  [seq i <- iota 0 (size x) | ~~ fisnan ops (getitem x i 0)].
(** [x[idx, :]] *)
Definition take_rows (x : array) (idx : seq nat) : array :=
  [seq nth [::] x i | i <- idx].
(** [a[:, j]] *)
Definition column (a : array) (j : nat) : vector :=
  [seq nth (fnan ops) r j | r <- a].
(** [a.T] *)
Definition transpose (a : array) : array :=
  [seq column a j | j <- iota 0 (ncols a)].
Definition inner (u v : vector) : T :=
  foldr (fadd ops) (fzero ops) [seq fmul ops p.1 p.2 | p <- zip u v].
(** [np.dot(a, b)] *)
Definition dot (a b : array) : array :=
  [seq [seq inner r c | c <- transpose b] | r <- a].
(** [np.zeros((m, n))], [np.ones((m, n))] *)
Definition zeros (m n : nat) : array := nseq m (nseq n (fzero ops)).
Definition ones (sh : nat * nat) : array := nseq sh.1 (nseq sh.2 (fone ops)).
(** [a * v], [a / n] and [-a], element by element *)
Definition times (a : array) (v : T) : array :=
  [seq [seq fmul ops e v | e <- r] | r <- a].
Definition divide (a : array) (n : nat) : array :=
  [seq [seq fdiv ops e (fof_nat ops n) | e <- r] | r <- a].
Definition negate (a : array) : array := [seq [seq fneg ops e | e <- r] | r <- a].

(** Broadcasting of one axis: a value of the wanted length is taken as it
    is, a value of length one is repeated. *)
Definition stretch {A : Type} (k : nat) (s : seq A) : option (seq A) :=
  if size s == k then Some s
  else if s is [:: a] then Some (nseq k a) else None.

Fixpoint stretch_rows (n : nat) (v : array) : option array :=
  if v is r :: v' then
    if stretch n r is Some r' then
      if stretch_rows n v' is Some w then Some (r' :: w) else None
    else None
  else Some [::].

(** [a[i, j] = v] *)
Definition setitem (a : array) (i j : nat) (v : T) : result array :=
  if (i < size a) && (j < ncols a)
  then Ok (set_nth [::] a i (set_nth (fnan ops) (nth [::] a i) j v))
  else Raise IndexError.

(** [a[:, j]] as an expression and [E[i]], with their index checks *)
Definition getcol (a : array) (j : nat) : result vector :=
  if j < ncols a then Ok (column a j) else Raise IndexError.
Definition getvec (E : vector) (i : nat) : result T :=
  if i < size E then Ok (nth (fnan ops) E i) else Raise IndexError.

(** [a[:, j] = v] *)
Definition setcol (a : array) (j : nat) (v : vector) : result array :=
  if j < ncols a then
    if stretch (size a) v is Some w
    then Ok [seq set_nth (fnan ops) p.1 j p.2 | p <- zip a w]
    else Raise ValueError
  else Raise IndexError.

(** [a[idx, :] = v]: the value is broadcast to the shape of the selected
    rows, [(len(idx), a.shape[1])]; a value of another shape is an error. *)
Definition set_rows (a : array) (idx : seq nat) (v : array) : result array :=
  if stretch (size idx) v is Some v1 then
    if stretch_rows (ncols a) v1 is Some v2
    then Ok (foldl (fun b p => set_nth [::] b p.1 p.2) a (zip idx v2))
    else Raise ValueError
  else Raise ValueError.

(** The linear-algebra collaborator: [np.linalg.eig] returns the
    eigenvalues and the matrix of eigenvectors, [np.linalg.svd] returns
    [(U, S, V)].  They are total functions here; a library routine may
    refuse a matrix that holds a missing value, so the theorems on inputs
    with missing values take the rows that are decomposed free of them. *)
Variable linalg_eig : array -> vector * array.
Variable linalg_svd : array -> array * vector * array.

Definition eof (x : array) (svd transform : bool)
    : result (array * vector * array) :=
  let has_nan := contains_nan x in
  let valid_idx := valid_rows x in
  let xx := if has_nan then take_rows x valid_idx else x in
  let: (m, n) := shape xx in
  r <-- (if svd then
          let: (U, Sv, V) := linalg_svd xx in
          let EOF := U in
          C <-- foldM (fun C i => setitem C i i (nth (fnan ops) Sv i))
                 (zeros m n) (iota 0 (size Sv)) ;;
          let PC := dot C V in
          let E := [seq fdiv ops (fmul ops s s) (fof_nat ops n) | s <- Sv] in
          Ok (EOF, E, PC)
        else if transform then
          let C := dot (transpose xx) xx in
          let: (E1, EOF1) := linalg_eig C in
          let EOF1 := [seq rev r | r <- EOF1] in
          let E := rev E1 in
          let EOFa := dot xx EOF1 in
          EOF <-- foldM (fun EOF i =>
                          c <-- getcol EOFa i ;;
                          e <-- getvec E i ;;
                          setcol EOF i
                            [seq fdiv ops v (fsqrt ops (fabs ops e)) | v <- c])
                   (zeros m n) (iota 0 n) ;;
          let PC := dot (transpose EOF) xx in
          Ok (EOF, E, PC)
        else
          let C := divide (dot xx (transpose xx)) n in
          let: (E, EOF) := linalg_eig C in
          let PC := dot (transpose EOF) xx in
          let EOF := [seq rev r | r <- EOF] in
          let PC := rev PC in
          let E := rev E in
          Ok (EOF, E, PC)) ;;
  let: (EOF, E, PC) := r in
  if has_nan then
    let _EOF := times (ones (shape x)) (fnan ops) in
    let _PC := times (ones (shape x)) (fnan ops) in
    _EOF <-- set_rows _EOF valid_idx (negate EOF) ;;
    _PC <-- set_rows _PC valid_idx (negate PC) ;;
    Ok (_EOF, E, _PC)
  else Ok (EOF, E, PC).

(** The contract of [np.linalg.eig] on shapes: the eigenvectors of a
    [k x k] matrix are the columns of a [k x k] matrix. *)
Definition eig_square : Prop :=
  forall (k : nat) (C : array),
    has_shape k k C -> has_shape k k (linalg_eig C).2.

(** [x] is an [m x n] array whose row [k] carries the missing marker in
    column 0 and whose other rows carry it nowhere. *)
Definition only_row_missing (m n k : nat) (x : array) : Prop :=
  [/\ has_shape m n x, k < m, 0 < n, fisnan ops (getitem x k 0) &
      forall i j, i < m -> j < n -> i != k -> ~~ fisnan ops (getitem x i j)].

(** The row indices of an array of [m] rows other than [k]. *)
Definition others (m k : nat) : seq nat := [seq i <- iota 0 m | i != k].

(** [x] without its row [k]. *)
Definition remove_row (k : nat) (x : array) : array :=
  take k x ++ drop k.+1 x.

End Eof.

(** A two-point abstraction of the floats, for shapes and missing values:
    a number or the missing marker, which every operation propagates. *)
Inductive absval : Type := Num | NaN.

Definition abs_isnan (v : absval) : bool := if v is NaN then true else false.
Definition abs_op1 (v : absval) : absval := v.
Definition abs_op2 (u v : absval) : absval :=
  if abs_isnan u || abs_isnan v then NaN else Num.
Definition abs_ops : float_ops absval :=
  FloatOps Num Num NaN abs_isnan abs_op2 abs_op2 abs_op2 abs_op1 abs_op1
           abs_op1 (fun _ => Num).

(** Eigenvectors and singular vectors of that abstraction: numbers, in
    arrays of the shapes the decompositions return. *)
Definition abs_eig (C : array absval) : vector absval * array absval :=
  (nseq (size C) Num, nseq (size C) (nseq (size C) Num)).
Definition abs_svd (a : array absval)
    : array absval * vector absval * array absval :=
  (nseq (size a) (nseq (size a) Num), nseq (minn (size a) (ncols a)) Num,
   nseq (ncols a) (nseq (ncols a) Num)).

(** A [3 x 3] array whose row 2 carries the missing marker in column 0. *)
Definition x33 : array absval :=
  [:: [:: Num; Num; Num]; [:: Num; Num; Num]; [:: NaN; Num; Num]].

End Eof.

(** ** Parcel formulas: [dry_lapse] and [equivalent_potential_temperature] *)

Module Parcel.

Import Thermo.
Local Open Scope R_scope.

(** An element of a float array: a finite number, or [None] for a value
    that is not finite (an infinity or a nan).  Array arithmetic raises
    nothing: a division by zero and a fractional power of a negative number
    give such a value, and with the positive exponent [kappa] and a finite
    factor it stays one. *)
Definition afloat : Type := option R.

(** [x / y], one element of [pressure / pressure[0]]. *)
Definition adiv (x y : R) : afloat :=
  if Req_dec_T y 0 then None else Some (x / y).

(** [v ** y], one element of an array power, for a positive exponent. *)
Definition apow (v : afloat) (y : R) : afloat :=
  if v is Some x then (if fpow x y is Ok w then Some w else None) else None.

(** [t * v], one element of a scalar times an array. *)
Definition amul (t : R) (v : afloat) : afloat :=
  if v is Some x then Some (t * x) else None.

(** [temperature * (pressure / pressure[0])**kappa] on an array of
    pressures and a scalar temperature; [pressure[0]] of an empty array is
    an index error. *)
Definition dry_lapse (pressure : seq R) (temperature : R)
    : result (seq afloat) :=
  if pressure is p0 :: _ then
    Ok [seq amul temperature (apow (adiv p p0) kappa) | p <- pressure]
  else Raise IndexError.

(** [equivalent_potential_temperature] on scalars, its operations in the
    order Python evaluates them; [np.log] and [np.exp] of a scalar are
    [math.log] and [math.exp]. *)
Definition equivalent_potential_temperature (pressure temperature dewpoint : R)
    : result R :=
  let t := temperature in
  let td := dewpoint in
  let p := pressure in
  e <-- saturation_vapor_pressure dewpoint ;;
  r <-- saturation_mixing_ratio pressure dewpoint ;;
  a <-- fdiv 1 (td - 56) ;;
  q <-- fdiv t td ;;
  l <-- flog q ;;
  b <-- fdiv 1 (a + l / 800) ;;
  let t_l := 56 + b in
  c <-- fdiv 1000 (p - e) ;;
  pw1 <-- fpow c kappa ;;
  d <-- fdiv t t_l ;;
  pw2 <-- fpow d (0.28 * r) ;;
  let th_l := t * pw1 * pw2 in
  f <-- fdiv 3036 t_l ;;
  let th_e := th_l * exp ((f - 1.78) * r * (1 + 0.448 * r)) in
  Ok th_e.

End Parcel.

(** ** Shape contracts of the decompositions *)

Module EofContracts.
Import Eof.

Section Contracts.

Variable T : Type.
Variable linalg_eig : array T -> vector T * array T.
Variable linalg_svd : array T -> array T * vector T * array T.

(** [np.linalg.eig] on a [k x k] matrix: [k] eigenvalues and a [k x k]
    matrix of eigenvectors. *)
Definition eig_shapes : Prop :=
  forall (k : nat) (C : array T),
    has_shape k k C ->
    size (linalg_eig C).1 = k /\ has_shape k k (linalg_eig C).2.

(** [np.linalg.svd] on an [m x n] matrix with at least one row: [U] is
    [m x m], [S] has [min(m, n)] singular values, [V] is [n x n]. *)
Definition svd_shapes : Prop :=
  forall (m n : nat) (a : array T),
    0 < m -> has_shape m n a ->
    [/\ has_shape m m (linalg_svd a).1.1,
        size (linalg_svd a).1.2 = minn m n &
        has_shape n n (linalg_svd a).2].

End Contracts.
End EofContracts.

(** * Properties of the formula library *)

Module ThermoFacts.

Import Thermo.
Local Open Scope R_scope.

(** Decimal literals are [Q2R] of a fraction; [field] wants them as
    quotients of integers. *)
Ltac decimals := cbv [Q2R QArith_base.Qnum QArith_base.Qden].

Lemma bind_Ok {A B : Type} (a : A) (k : A -> result B) : bind (Ok a) k = k a.
Proof. reflexivity. Qed.

Lemma fdiv_Ok (x y : R) : y <> 0 -> fdiv x y = Ok (x / y).
Proof.
  move=> Hy. rewrite /fdiv.
  by case: (Req_dec_T y 0).
Qed.

Lemma fdiv_zero (x : R) : fdiv x 0 = Raise ZeroDivisionError.
Proof.
  rewrite /fdiv. by case: (Req_dec_T 0 0).
Qed.

Lemma flog_Ok (x : R) : 0 < x -> flog x = Ok (ln x).
Proof.
  move=> Hx. rewrite /flog.
  by case: (Rlt_dec 0 x).
Qed.

Lemma fpow_Ok (x y : R) : 0 < x -> fpow x y = Ok (Rpower x y).
Proof.
  move=> Hx. rewrite /fpow.
  by case: (Rlt_dec 0 x).
Qed.

Lemma Rd_pos : 0 < Rd.
Proof. rewrite /Rd /R_gas /Md. apply: Rdiv_lt_0_compat; lra. Qed.

Lemma epsilon_pos : 0 < epsilon.
Proof. rewrite /epsilon /Mw /Md. apply: Rdiv_lt_0_compat; lra. Qed.

(** **** Saturation vapor pressure and dewpoint *)

Lemma saturation_vapor_pressure_Ok (T : R) :
  T <> 29.65 ->
  saturation_vapor_pressure T = Ok (sat_pressure_0c * exp (bolton T)).
Proof.
  move=> HT. rewrite /saturation_vapor_pressure fdiv_Ok //. lra.
Qed.

Lemma saturation_vapor_pressure_singular :
  saturation_vapor_pressure 29.65 = Raise ZeroDivisionError.
Proof.
  rewrite /saturation_vapor_pressure.
  have -> : 29.65 - 29.65 = 0 by lra.
  by rewrite fdiv_zero.
Qed.

Lemma bolton_gap (T : R) :
  T <> 29.65 -> 17.67 - bolton T = 17.67 * 243.5 / (T - 29.65).
Proof. move=> HT. rewrite /bolton. decimals. field. move: HT; decimals; lra. Qed.

Lemma bolton_gap_neq0 (T : R) : T <> 29.65 -> 17.67 - bolton T <> 0.
Proof.
  move=> HT. rewrite bolton_gap //.
  apply: Rmult_integral_contrapositive_currified; first lra.
  apply: Rinv_neq_0_compat. lra.
Qed.

(** [dewpoint] on a vapor pressure written [rh * (6.112 * exp a)]. *)
Lemma dewpoint_scaled (rh a : R) :
  0 < rh -> 17.67 - (ln rh + a) <> 0 ->
  dewpoint (rh * (sat_pressure_0c * exp a)) =
  Ok (243.5 * (ln rh + a) / (17.67 - (ln rh + a))).
Proof.
  move=> Hrh Hne. rewrite /dewpoint /sat_pressure_0c.
  have -> : rh * (6.112 * exp a) / 6.112 = rh * exp a by decimals; field.
  have Hexp := exp_pos a.
  have Hpos : 0 < rh * exp a by apply: Rmult_lt_0_compat.
  by rewrite (flog_Ok Hpos) bind_Ok ln_mult // ln_exp fdiv_Ok.
Qed.

(** The dewpoint expression at the Bolton exponent itself. *)
Lemma dewpoint_at_bolton (T : R) :
  T <> 29.65 -> 243.5 * bolton T / (17.67 - bolton T) = T - 273.15.
Proof.
  move=> HT. have Hne := bolton_gap_neq0 HT.
  rewrite bolton_gap // /bolton. decimals. field. move: HT; decimals; lra.
Qed.

(** C9: for every Kelvin temperature [T] other than 29.65,
    [dewpoint (saturation_vapor_pressure T)] returns [T - 273.15]: the
    dewpoint formula inverts the Bolton saturation-vapor-pressure formula
    and recovers the temperature in degrees Celsius, as an identity of real
    numbers. *)
Theorem dewpoint_inverts_saturation_vapor_pressure (T : R) :
  T <> 29.65 ->
  (es <-- saturation_vapor_pressure T ;; dewpoint es) = Ok (T - 273.15).
Proof.
  move=> HT. rewrite saturation_vapor_pressure_Ok // bind_Ok.
  have Hne := bolton_gap_neq0 HT.
  have -> : sat_pressure_0c * exp (bolton T)
            = 1 * (sat_pressure_0c * exp (bolton T)) by ring.
  have Hne1 : 17.67 - (ln 1 + bolton T) <> 0 by rewrite ln_1 Rplus_0_l.
  by rewrite (dewpoint_scaled Rlt_0_1 Hne1) ln_1 Rplus_0_l dewpoint_at_bolton.
Qed.

Lemma dewpoint_inverts_saturation_vapor_pressure_witness :
  300 <> 29.65 /\
  (es <-- saturation_vapor_pressure 300 ;; dewpoint es) = Ok (300 - 273.15).
Proof.
  split; first lra.
  apply: (@dewpoint_inverts_saturation_vapor_pressure 300). lra.
Defined.

(** [dewpoint_rh] where the Bolton exponent is defined and the dewpoint
    quotient has a non-zero denominator. *)
Lemma dewpoint_rh_Ok (T rh : R) :
  T <> 29.65 -> 0 < rh -> 17.67 - (ln rh + bolton T) <> 0 ->
  dewpoint_rh T rh =
  Ok (243.5 * (ln rh + bolton T) / (17.67 - (ln rh + bolton T))).
Proof.
  move=> HT Hrh Hne.
  by rewrite /dewpoint_rh saturation_vapor_pressure_Ok // bind_Ok dewpoint_scaled.
Qed.

Lemma ln_le_0 (rh : R) : 0 < rh <= 1 -> ln rh <= 0.
Proof.
  move=> [Hpos [Hlt | ->]]; last by rewrite ln_1; lra.
  have := ln_increasing _ _ Hpos Hlt. rewrite ln_1. lra.
Qed.

(** Above the pole of the Bolton formula the dewpoint is at most the
    temperature in degrees Celsius. *)
Lemma dewpoint_rh_le_celsius (T rh : R) :
  29.65 < T -> 0 < rh <= 1 ->
  exists d : R, dewpoint_rh T rh = Ok d /\ d <= T - 273.15.
Proof.
  move=> HT Hrh. have Hln := ln_le_0 Hrh.
  have HT' : T <> 29.65 by lra.
  have Hgap := bolton_gap HT'.
  have Hgap_pos : 0 < 17.67 - bolton T.
  { rewrite Hgap. apply: Rdiv_lt_0_compat; lra. }
  set v := ln rh + bolton T.
  have Hv : 0 < 17.67 - v by rewrite /v; lra.
  have Hne : 17.67 - v <> 0 by lra.
  exists (243.5 * v / (17.67 - v)); split.
  - by apply: dewpoint_rh_Ok => //; case: Hrh.
  - have Hb : bolton T * (T - 29.65) = 17.67 * (T - 273.15).
    { rewrite /bolton. decimals. field. move: HT'; decimals; lra. }
    apply: (Rmult_le_reg_r (17.67 - v)) => //.
    have -> : 243.5 * v / (17.67 - v) * (17.67 - v) = 243.5 * v.
    { decimals. field. move: Hne; decimals; lra. }
    have Hva : v <= bolton T by rewrite /v; lra.
    nra.
Qed.

(** C7 (amended): for every temperature [T] of at least 36 (Kelvin, above
    the pole 29.65 of the Bolton formula and the range next to it where the
    saturation vapor pressure underflows to zero) and every relative
    humidity [rh] in [[1e-15, 1]], [dewpoint_rh T rh] returns a dewpoint
    that is at most [T]. *)
Theorem dewpoint_rh_le_temperature (T rh : R) :
  36 <= T -> 1e-15 <= rh <= 1 ->
  exists d : R, dewpoint_rh T rh = Ok d /\ d <= T.
Proof.
  move=> HT Hrh.
  have HT' : 29.65 < T by lra.
  have Hrh' : 0 < rh <= 1 by lra.
  have [d [Hd Hle]] := dewpoint_rh_le_celsius HT' Hrh'.
  exists d; split => //. lra.
Qed.

Lemma dewpoint_rh_le_temperature_witness :
  exists d : R, dewpoint_rh 300 0.5 = Ok d /\ d <= 300.
Proof. apply: (@dewpoint_rh_le_temperature 300 0.5); lra. Defined.

(** C7 (as stated) fails below the pole: at [T = 5.3] the Bolton exponent
    is [194.37], and the relative humidity [exp (-185.535)], which lies in
    (0, 1], gives the dewpoint [243.5], far above [T]. *)
Lemma dewpoint_rh_above_temperature :
  0 < exp (-185.535) <= 1 /\
  dewpoint_rh 5.3 (exp (-185.535)) = Ok 243.5 /\
  ~ 243.5 <= 5.3.
Proof.
  have Hb : bolton 5.3 = 194.37.
  { rewrite /bolton. have -> : 5.3 - 29.65 = -24.35 by lra. lra. }
  split; [| split]; last lra.
  - split; first exact: exp_pos.
    rewrite -exp_0. left. apply: exp_increasing. lra.
  - rewrite dewpoint_rh_Ok; rewrite ?ln_exp ?Hb; try lra; try exact: exp_pos.
    congr Ok. lra.
Qed.

(** **** Concrete values *)

Lemma Rpower_root_pow (c : R) (m : nat) :
  0 < c -> Rpower (c ^ m.+1) (/ INR m.+1) = c.
Proof.
  move=> Hc. have Hm : INR m.+1 <> 0 by apply: not_0_INR.
  by rewrite -Rpower_pow // Rpower_mult Rinv_r // Rpower_1.
Qed.

Lemma Rpower_frac (a : R) (n m : nat) :
  0 < a -> Rpower a (INR n / INR m.+1) = Rpower (a ^ n) (/ INR m.+1).
Proof. move=> Ha. by rewrite -Rpower_pow // Rpower_mult. Qed.

(** A rational power is bounded through integer powers. *)
Lemma Rpower_frac_gt (a c : R) (n m : nat) :
  0 < a -> 0 < c -> c ^ m.+1 < a ^ n -> c < Rpower a (INR n / INR m.+1).
Proof.
  move=> Ha Hc Hlt. rewrite Rpower_frac // -{1}(Rpower_root_pow m Hc).
  apply: Rlt_Rpower_l.
  - apply: Rinv_0_lt_compat. apply: lt_0_INR. exact: Nat.lt_0_succ.
  - split => //. exact: pow_lt.
Qed.

Lemma Rpower_frac_lt (a c : R) (n m : nat) :
  0 < a -> 0 < c -> a ^ n < c ^ m.+1 -> Rpower a (INR n / INR m.+1) < c.
Proof.
  move=> Ha Hc Hlt. rewrite Rpower_frac // -{1}(Rpower_root_pow m Hc).
  apply: Rlt_Rpower_l.
  - apply: Rinv_0_lt_compat. apply: lt_0_INR. exact: Nat.lt_0_succ.
  - split => //. exact: pow_lt.
Qed.

(** Powers of fractions of integers are compared in [Z]. *)
Lemma pow_frac_lt (A B C D : Z) (m n : nat) :
  (0 < B)%Z -> (0 < D)%Z ->
  (A ^ Z.of_nat m * D ^ Z.of_nat n < C ^ Z.of_nat n * B ^ Z.of_nat m)%Z ->
  (IZR A / IZR B) ^ m < (IZR C / IZR D) ^ n.
Proof.
  move=> HB HD Hlt.
  have HB' : 0 < IZR B ^ m by apply: pow_lt; apply: IZR_lt.
  have HD' : 0 < IZR D ^ n by apply: pow_lt; apply: IZR_lt.
  rewrite /Rdiv !Rpow_mult_distr !pow_inv.
  apply: (Rmult_lt_reg_r (IZR B ^ m * IZR D ^ n)).
  - exact: Rmult_lt_0_compat.
  - have -> : IZR A ^ m * / IZR B ^ m * (IZR B ^ m * IZR D ^ n)
              = IZR A ^ m * IZR D ^ n by field; lra.
    have -> : IZR C ^ n * / IZR D ^ n * (IZR B ^ m * IZR D ^ n)
              = IZR C ^ n * IZR B ^ m by field; lra.
    rewrite !pow_IZR -!mult_IZR. exact: IZR_lt.
Qed.

Lemma potential_temperature_800_273 :
  potential_temperature 800 273 = Ok (273 * Rpower (5 / 4) (INR 143 / INR 500)).
Proof.
  have H800 : 800 <> 0 by lra.
  have Hq : 0 < 1000 / 800 by lra.
  rewrite /potential_temperature /P0 (fdiv_Ok _ H800) bind_Ok (fpow_Ok _ Hq).
  rewrite bind_Ok /kappa. congr (Ok (_ * Rpower _ _)); first lra.
  rewrite !INR_IZR_INZ /=. lra.
Qed.

(** The value of [potential_temperature 800 273] to four decimals. *)
Lemma potential_temperature_800_273_bounds :
  exists v : R,
    potential_temperature 800 273 = Ok v /\ 290.9905 < v < 290.9906.
Proof.
  rewrite potential_temperature_800_273. eexists; split; first by [].
  have Hlo : IZR 2909905 / IZR 2730000 < Rpower (5 / 4) (INR 143 / INR 500).
  { apply: Rpower_frac_gt; [lra | lra |].
    apply: (@pow_frac_lt 2909905 2730000 5 4 500 143);
      [by [] | by [] | by vm_compute]. }
  have Hhi : Rpower (5 / 4) (INR 143 / INR 500) < IZR 2909906 / IZR 2730000.
  { apply: Rpower_frac_lt; [lra | lra |].
    apply: (@pow_frac_lt 5 4 2909906 2730000 143 500);
      [by [] | by [] | by vm_compute]. }
  lra.
Qed.

Lemma saturation_vapor_pressure_0c :
  saturation_vapor_pressure 273.15 = Ok 6.112.
Proof.
  have HT : 273.15 <> 29.65 by lra.
  rewrite (saturation_vapor_pressure_Ok HT).
  have -> : bolton 273.15 = 0.
  { rewrite /bolton. have -> : 273.15 - 273.15 = 0 by lra.
    rewrite /Rdiv Rmult_0_r. ring. }
  rewrite exp_0 /sat_pressure_0c. congr Ok. lra.
Qed.

(** C8 (amended): [potential_temperature 800.0 273.0] is 290.9906 to within
    0.0001 (with [P0 = 1000] and [kappa = 0.286]), and
    [saturation_vapor_pressure 273.15] is 6.112. *)
Theorem concrete_scenario :
  (exists v : R,
     potential_temperature 800 273 = Ok v /\ approx 0.0001 v 290.9906) /\
  (exists w : R,
     saturation_vapor_pressure 273.15 = Ok w /\ approx 0 w 6.112).
Proof.
  split.
  - have [v [Hv Hb]] := potential_temperature_800_273_bounds.
    exists v; split => //. rewrite /approx. apply: Rabs_le. lra.
  - exists 6.112; split; first exact: saturation_vapor_pressure_0c.
    rewrite /approx. have -> : 6.112 - 6.112 = 0 by lra.
    rewrite Rabs_R0. lra.
Qed.

(** C8 (as stated) fails in its first value: the potential temperature is
    more than 0.02 away from 290.966. *)
Lemma potential_temperature_not_290_966 :
  ~ (exists v : R,
       potential_temperature 800 273 = Ok v /\ approx 0.02 v 290.966).
Proof.
  have [v [Hv Hb]] := potential_temperature_800_273_bounds.
  move=> [w [Hw]]. move: Hw; rewrite Hv => -[<-].
  rewrite /approx => Habs.
  have := Rle_abs (v - 290.966). lra.
Qed.

(** **** Mixing ratio and vapor pressure *)

(** C10: for every partial pressure [e] and total pressure [p] with
    [p <> e], where [mixing_ratio e p] returns [r] and [epsilon + r] is not
    zero, [vapor_pressure p (mixing_ratio e p)] returns [e]: vapor_pressure
    inverts mixing_ratio in its partial-pressure argument, as an identity of
    real numbers. *)
Theorem vapor_pressure_inverts_mixing_ratio (e p r : R) :
  p <> e -> mixing_ratio e p = Ok r -> epsilon + r <> 0 ->
  (w <-- mixing_ratio e p ;; vapor_pressure p w) = Ok e.
Proof.
  move=> Hpe Hr Hne. rewrite Hr bind_Ok.
  have Hd : p - e <> 0 by lra.
  move: Hr; rewrite /mixing_ratio (fdiv_Ok _ Hd) => -[Hr].
  have Heps := epsilon_pos.
  have Hsum : epsilon + r = epsilon * p / (p - e) by rewrite -Hr; field.
  have Hp : p <> 0.
  { move=> Hp0. apply: Hne. rewrite Hsum Hp0. field. lra. }
  rewrite /vapor_pressure (fdiv_Ok _ Hne). congr Ok.
  rewrite Hsum -Hr. field. lra.
Qed.

Lemma vapor_pressure_inverts_mixing_ratio_witness :
  (w <-- mixing_ratio 1 2 ;; vapor_pressure 2 w) = Ok 1.
Proof.
  have Heps := epsilon_pos.
  apply: (@vapor_pressure_inverts_mixing_ratio 1 2 (epsilon * 1 / (2 - 1))).
  - lra.
  - by rewrite /mixing_ratio fdiv_Ok //; lra.
  - have -> : epsilon * 1 / (2 - 1) = epsilon by field.
    lra.
Defined.

(** **** Standard atmosphere *)

Lemma std_exponent_inverse : (Rd * 6.5 / g) * (g / (Rd * 6.5)) = 1.
Proof.
  have HRd := Rd_pos. rewrite /g. decimals. field. lra.
Qed.

(** On a positive pressure the two conversions are exactly inverse. *)
Lemma std_atmosphere_inverse (p : R) :
  0 < p ->
  (h <-- pressure_to_height_std p ;; height_to_pressure_std h) = Ok p.
Proof.
  move=> Hp. rewrite /pressure_to_height_std.
  have Hq : 0 < p / 1013.25 by apply: Rdiv_lt_0_compat; lra.
  rewrite (fpow_Ok _ Hq) !bind_Ok /height_to_pressure_std.
  set X := Rpower _ _.
  have HX : 0 < X by apply: exp_pos.
  have -> : 1 - 6.5 / 288 * (288 / 6.5 * (1 - X) * 1000 * 0.001) = X by lra.
  rewrite (fpow_Ok _ HX) bind_Ok /X Rpower_mult std_exponent_inverse.
  rewrite Rpower_1 //. congr Ok. lra.
Qed.

(** C5: for every pressure [p] from 100 to 1050 hPa,
    [height_to_pressure_std (pressure_to_height_std p)] returns a pressure
    within relative tolerance 1e-6 of [p] (the second conversion scales
    metres to kilometres and applies the algebraic inverse of the first). *)
Theorem std_atmosphere_round_trip (p : R) :
  100 <= p <= 1050 ->
  exists q : R,
    (h <-- pressure_to_height_std p ;; height_to_pressure_std h) = Ok q /\
    Rabs (q - p) <= 1e-6 * Rabs p.
Proof.
  move=> [Hlo Hhi]. exists p. split; first by apply: std_atmosphere_inverse; lra.
  have -> : p - p = 0 by ring.
  rewrite Rabs_R0. have := Rabs_pos p. lra.
Qed.

Lemma std_atmosphere_round_trip_witness :
  exists q : R,
    (h <-- pressure_to_height_std 500 ;; height_to_pressure_std h) = Ok q /\
    Rabs (q - 500) <= 1e-6 * Rabs 500.
Proof. apply: (@std_atmosphere_round_trip 500). lra. Defined.

End ThermoFacts.

(** * Properties of the varimax loop *)

Module VarimaxFacts.
Import Varimax.
Import Order.Theory GRing.Theory Num.Theory.
Local Open Scope ring_scope.

Section Loop.
Variable F : realFieldType.
Variables p nc : nat.
Variable svd : 'M[F]_nc -> 'M[F]_nc * 'rV[F]_nc * 'M[F]_nc.
Variable x : 'M[F]_(p, nc).
Variable tol : F.

Lemma orthogonal1 : orthogonal (1%:M : 'M[F]_nc).
Proof. by rewrite /orthogonal trmx1 mulmx1. Qed.

Lemma orthogonal_mul (U V : 'M[F]_nc) :
  orthogonal U -> orthogonal V -> orthogonal (U *m V).
Proof.
  rewrite /orthogonal => HU HV.
  by rewrite trmx_mul mulmxA -(mulmxA U) HV mulmx1.
Qed.

Lemma step_orthogonal (TT : 'M[F]_nc) :
  svd_unitary svd -> orthogonal (step svd x TT).1.
Proof.
  move=> Hsvd. rewrite /step.
  have [] := Hsvd (rotation_target x TT).
  case: (svd _) => [[U Sv] Vh] /= HU HV.
  exact: orthogonal_mul.
Qed.

Lemma iterations_orthogonal (n : nat) (TT : 'M[F]_nc) (d : F) :
  svd_unitary svd ->
  forall s, s \in iterations svd x tol n TT d -> orthogonal s.1.
Proof.
  move=> Hsvd. elim: n TT d => [|n IH] TT d s //=.
  rewrite inE => /orP [/eqP -> | ]; first exact: step_orthogonal.
  case: ifP => _ //. exact: IH.
Qed.

Lemma iterations_spec (n : nat) (TT : 'M[F]_nc) (d : F) :
  let tr := iterations svd x tol n TT d in
  let before k := nth (start F nc) ((TT, d) :: tr) k in
  [/\ (size tr <= n)%nat,
      (0 < n)%nat -> (0 < size tr)%nat,
      forall k, (k < size tr)%nat -> nth (start F nc) tr k = step svd x (before k).1,
      forall k, (k < size tr)%nat ->
        exit_test tol (before k).2 (nth (start F nc) tr k).2 -> k.+1 = size tr
    & (size tr < n)%nat ->
        exit_test tol (before (size tr).-1).2 (nth (start F nc) tr (size tr).-1).2].
Proof.
  elim: n TT d => [|n IH] TT d //=.
  case Es: (step svd x TT) => [TT' d'] /=.
  case Hexit: (exit_test tol d d') => /=.
  - by split=> // -[|k].
  - have [Hsize Hpos Hstep Hstop Hearly] := IH TT' d'.
    split=> //.
    + by case=> [_|k Hk] //=; apply: Hstep.
    + case=> [_|k Hk] /=; first by rewrite Hexit.
      by move/(Hstop k Hk) => ->.
    + rewrite ltnS => Hlt. have Hn : (0 < n)%nat by exact: leq_ltn_trans Hlt.
      have := Hearly Hlt.
      by case: (iterations _ _ _ _ _ _) (Hpos Hn).
Qed.


(** C2: for every input matrix [x], tolerance and [it_max] (in particular
    [it_max >= 1]), with a singular value decomposition whose factors [U]
    and [Vh] are orthogonal, the rotation matrix [TT] after every iteration
    of the loop satisfies [TT * TT^T = 1], and so does the [TT] that
    [varimax] returns. *)
Theorem varimax_rotation_orthogonal (normalize : bool) (it_max : nat) :
  svd_unitary svd ->
  (forall s, s \in iterations svd x tol it_max (start F nc).1 (start F nc).2 ->
             orthogonal s.1) /\
  orthogonal (varimax svd x normalize tol it_max).2.
Proof.
  move=> Hsvd.
  have Hall := @iterations_orthogonal it_max (start F nc).1 (start F nc).2 Hsvd.
  split; first exact: Hall.
  rewrite /varimax /=.
  have := mem_last (start F nc)
            (iterations svd x tol it_max (start F nc).1 (start F nc).2).
  rewrite inE => /orP [/eqP -> | /Hall //]. exact: orthogonal1.
Qed.

(** An iteration is the last one exactly when its test holds or the range
    is exhausted. *)
Lemma iterations_last (n : nat) (TT : 'M[F]_nc) (d : F) :
  let tr := iterations svd x tol n TT d in
  forall k, (k < size tr)%nat ->
    (k.+1 == size tr)
    = ((nth (start F nc) tr k).2
       < (nth (start F nc) ((TT, d) :: tr) k).2 * (1 + tol))
      || (k.+1 == n).
Proof.
  elim: n TT d => [|n IH] TT d //=.
  case Es: (step svd x TT) => [TT' d'] /=.
  rewrite /exit_test. case Hexit: (d' < d * (1 + tol)) => /=.
  - by case=> [_|k] //=; rewrite Hexit.
  - have [_ Hpos _ _ _] := @iterations_spec n TT' d'.
    case=> [_|k Hk] /=.
    + rewrite Hexit /= !eqSS. by case: n Hpos {IH}.
    + by rewrite !eqSS; apply: IH.
Qed.

Lemma step_factors (TT : 'M[F]_nc) :
  let: (U, Sv, Vh) := svd (rotation_target x TT) in
  step svd x TT = (U *m Vh, \sum_j Sv 0 j).
Proof. rewrite /step. by case: (svd _) => [[U Sv] Vh]. Qed.

(** C4: for every input matrix [x], tolerance and [it_max >= 1], the loop
    starts from [TT = 1] and [d = 0] and runs at least one and at most
    [it_max] iterations; each iteration takes the factors [(U, S, Vh)] of
    the decomposition of the matrix built from [x] and the rotation before
    it, and leaves [TT = U * Vh] and [d = sum(S)]; an iteration is the last
    one exactly when [d < d_prev * (1 + tol)] or it is iteration [it_max];
    on the first iteration [d_prev = 0], so a positive [d] does not stop
    the loop; the result is [x * TT] for the final [TT]. *)
Theorem varimax_loop_exit (normalize : bool) (it_max : nat) :
  (1 <= it_max)%nat ->
  let tr := iterations svd x tol it_max 1%:M 0 in
  let before k := nth (1%:M, 0) ((1%:M, 0) :: tr) k in
  let after k := nth (1%:M, 0) tr k in
  [/\ (0 < size tr <= it_max)%nat,
      forall k, (k < size tr)%nat ->
        let: (U, Sv, Vh) := svd (rotation_target x (before k).1) in
        after k = (U *m Vh, \sum_j Sv 0 j),
      forall k, (k < size tr)%nat ->
        (k.+1 == size tr)
        = ((after k).2 < (before k).2 * (1 + tol)) || (k.+1 == it_max),
      0 < (after 0).2 -> (1 < it_max)%nat -> (1 < size tr)%nat
    & varimax svd x normalize tol it_max
      = (x *m (last (1%:M, 0) tr).1, (last (1%:M, 0) tr).1)].
Proof.
  move=> Hit tr before after.
  have [Hsize Hpos Hstep _ _] := @iterations_spec it_max 1%:M 0.
  have Hlast := @iterations_last it_max 1%:M 0.
  have Htr : (0 < size tr)%nat by exact: Hpos.
  split=> //.
  - by rewrite Htr.
  - move=> k Hk. have := step_factors (before k).1.
    case: (svd _) => [[U Sv] Vh] <-. exact: Hstep.
  - move=> Hd Hit1. have := Hlast 0%N Htr.
    rewrite -/tr /= mul0r ltNge (ltW Hd) /= (ltn_eqF Hit1).
    by case: (size tr) Htr => [|[|n]].
Qed.

(** C6: the outputs of [varimax] do not depend on [normalize]: the
    parameter is accepted and never used. *)
Theorem varimax_normalize_ignored (it_max : nat) :
  varimax svd x true tol it_max = varimax svd x false tol it_max.
Proof. by []. Qed.

End Loop.

(** *** A run of the loop on 2 x 2 rational loadings *)

Ltac entries :=
  let i := fresh "i" in
  let j := fresh "j" in
  apply/matrixP; move=> i j;
  rewrite !(mxE, big_ord_recl, big_ord0);
  case: i => [[|[|?]] ?] //; case: j => [[|[|?]] ?] //=.

Lemma rat_eqb (a b : rat) : (a == b) = true -> a = b.
Proof. by move/eqP. Qed.

Lemma mx2_eq (a b c d a' b' c' d' : rat) :
  a = a' -> b = b' -> c = c' -> d = d' -> mx2 a b c d = mx2 a' b' c' d'.
Proof. by move=> -> -> -> ->. Qed.

Lemma row2_eq (s t s' t' : rat) : s = s' -> t = t' -> row2 s t = row2 s' t'.
Proof. by move=> -> ->. Qed.

(** Equations between closed rational terms, by evaluation. *)
Ltac rat_eq := apply: rat_eqb; vm_compute; reflexivity.

Lemma mulmx_mx2 (a b c d e f g h : rat) :
  mx2 a b c d *m mx2 e f g h
  = mx2 (a * e + b * g) (a * f + b * h) (c * e + d * g) (c * f + d * h).
Proof. by entries; rewrite addr0. Qed.

Lemma trmx_mx2 (a b c d : rat) : (mx2 a b c d)^T = mx2 a c b d.
Proof. by entries. Qed.

Lemma one_mx2 : 1%:M = mx2 1 0 0 1.
Proof. by entries. Qed.

Lemma diag_mx2 (a b c d : rat) : \row_j (mx2 a b c d) j j = row2 a d.
Proof. apply/rowP => j. rewrite !mxE. by case: j => [[|[|?]] ?]. Qed.

Lemma sum_row2 (s t : rat) : \sum_j row2 s t 0 j = s + t.
Proof. by rewrite !big_ord_recl big_ord0 !mxE /= addr0. Qed.

Lemma diag_mx_row2 (s t : rat) : diag_mx (row2 s t) = mx2 s 0 0 t.
Proof. by entries; rewrite ?mulr1n ?mulr0n. Qed.

(** The matrix [B] of the loop, on entries. *)
Lemma rotation_target_mx2 (a b c d e f g h : rat) :
  let z1 := a * e + b * g in
  let z2 := a * f + b * h in
  let z3 := c * e + d * g in
  let z4 := c * f + d * h in
  let m1 := z1 ^+ 3 - 2%:R^-1 * (z1 * (z1 ^+ 2 + z3 ^+ 2)) in
  let m2 := z2 ^+ 3 - 2%:R^-1 * (z2 * (z2 ^+ 2 + z4 ^+ 2)) in
  let m3 := z3 ^+ 3 - 2%:R^-1 * (z3 * (z1 ^+ 2 + z3 ^+ 2)) in
  let m4 := z4 ^+ 3 - 2%:R^-1 * (z4 * (z2 ^+ 2 + z4 ^+ 2)) in
  rotation_target (mx2 a b c d) (mx2 e f g h)
  = mx2 (a * m1 + c * m3) (a * m2 + c * m4) (b * m1 + d * m3) (b * m2 + d * m4).
Proof.
  rewrite /rotation_target mulmx_mx2 /=.
  by entries; rewrite !(mul1r, addr0, add0r, mulr1n, mulr0n, mulr0).
Qed.

Lemma svd2_unitary : svd_unitary svd2.
Proof.
  move=> B; rewrite /svd2 /orthogonal /= /svd2_U /svd2_Vh !trmx_mx2 !mulmx_mx2.
  by rewrite one_mx2; split; apply: mx2_eq; rat_eq.
Qed.

(** Every iteration leaves the same rotation, which is not the identity. *)
Lemma svd2_rotation :
  svd2_U *m svd2_Vh
  = mx2 (- (4%:Q / 5%:Q)) (3%:Q / 5%:Q) (3%:Q / 5%:Q) (4%:Q / 5%:Q).
Proof. rewrite /svd2_U /svd2_Vh mulmx_mx2. by apply: mx2_eq; rat_eq. Qed.

Lemma step_svd2 (TT : 'M[rat]_2) :
  step svd2 x2 TT
  = (svd2_U *m svd2_Vh,
     \sum_j (\row_j (svd2_U^T *m rotation_target x2 TT *m svd2_Vh^T) j j
             : 'rV[rat]_2) 0 j).
Proof. by []. Qed.

(** The first [B] is [[0, 60000], [0, 80000]], of which [svd2] is a singular
    value decomposition, with the singular values 100000 and 0. *)
Lemma rotation_target_x2_start :
  rotation_target x2 1%:M = mx2 0 (6%:Q * 10%:Q ^+ 4) 0 (8%:Q * 10%:Q ^+ 4).
Proof.
  rewrite /x2 one_mx2 rotation_target_mx2. cbv zeta.
  by apply: mx2_eq; rat_eq.
Qed.

Lemma svd2_exact_start :
  let B := rotation_target x2 1%:M in
  let: (U, Sv, Vh) := svd2 B in
  Sv = row2 (10%:Q ^+ 5) 0 /\ B = U *m diag_mx Sv *m Vh.
Proof.
  cbv beta iota zeta delta [svd2].
  have HS : \row_j (svd2_U^T *m rotation_target x2 1%:M *m svd2_Vh^T) j j
            = row2 (10%:Q ^+ 5) 0.
  { rewrite rotation_target_x2_start /svd2_U /svd2_Vh !trmx_mx2 !mulmx_mx2.
    rewrite diag_mx2. by apply: row2_eq; rat_eq. }
  rewrite HS; split; first by [].
  rewrite rotation_target_x2_start diag_mx_row2 /svd2_U /svd2_Vh !mulmx_mx2.
  by apply: mx2_eq; rat_eq.
Qed.

Lemma pair_snd_eq (A B : Type) (a : A) (b b' : B) :
  b = b' -> (a, b) = (a, b').
Proof. by move=> ->. Qed.

Lemma iterationsS (F : realFieldType) (p nc : nat)
    (svd : 'M[F]_nc -> 'M[F]_nc * 'rV[F]_nc * 'M[F]_nc)
    (x : 'M[F]_(p, nc)) (tol : F) (n : nat) (TT : 'M[F]_nc) (d : F) :
  iterations svd x tol n.+1 TT d
  = step svd x TT ::
      (if exit_test tol d (step svd x TT).2 then [::]
       else iterations svd x tol n (step svd x TT).1 (step svd x TT).2).
Proof. by []. Qed.

Lemma step_x2_start : step svd2 x2 1%:M = (svd2_U *m svd2_Vh, 10%:Q ^+ 5).
Proof.
  rewrite step_svd2 rotation_target_x2_start /svd2_U /svd2_Vh.
  rewrite !trmx_mx2 !mulmx_mx2 diag_mx2 sum_row2.
  by apply: pair_snd_eq; rat_eq.
Qed.

Lemma step_x2_rotated :
  step svd2 x2 (svd2_U *m svd2_Vh)
  = (svd2_U *m svd2_Vh, 158%:Q * 10%:Q ^+ 3 + 336%:Q).
Proof.
  rewrite step_svd2 {2}svd2_rotation /x2 rotation_target_mx2 /svd2_U /svd2_Vh.
  cbv zeta.
  rewrite !trmx_mx2 !mulmx_mx2 diag_mx2 sum_row2.
  by apply: pair_snd_eq; rat_eq.
Qed.

(** The run: the first sum [d = 100000] is positive and does not stop the
    loop, the second, [158336], is not below [100000 * (1 + tol)], the
    third equals the second and stops the loop, at 3 of the 10 iterations
    allowed. *)
Lemma iterations_x2 :
  iterations svd2 x2 tol2 10 1%:M 0
  = [:: (svd2_U *m svd2_Vh, 10%:Q ^+ 5);
        (svd2_U *m svd2_Vh, 158%:Q * 10%:Q ^+ 3 + 336%:Q);
        (svd2_U *m svd2_Vh, 158%:Q * 10%:Q ^+ 3 + 336%:Q)].
Proof.
  rewrite iterationsS step_x2_start [(_, _).1]/= [(_, _).2]/=.
  have -> : exit_test tol2 0 (10%:Q ^+ 5) = false by vm_compute.
  rewrite iterationsS step_x2_rotated [(_, _).1]/= [(_, _).2]/=.
  have -> : exit_test tol2 (10%:Q ^+ 5) (158%:Q * 10%:Q ^+ 3 + 336%:Q) = false
    by vm_compute.
  rewrite iterationsS step_x2_rotated [(_, _).2]/=.
  have -> : exit_test tol2 (158%:Q * 10%:Q ^+ 3 + 336%:Q)
              (158%:Q * 10%:Q ^+ 3 + 336%:Q) = true by vm_compute.
  by [].
Qed.

(** The rotation returned on these loadings is not the identity. *)
Lemma varimax_x2 :
  varimax svd2 x2 false tol2 10
  = (x2 *m mx2 (- (4%:Q / 5%:Q)) (3%:Q / 5%:Q) (3%:Q / 5%:Q) (4%:Q / 5%:Q),
     mx2 (- (4%:Q / 5%:Q)) (3%:Q / 5%:Q) (3%:Q / 5%:Q) (4%:Q / 5%:Q)).
Proof. by rewrite /varimax [start _ _]/= iterations_x2 /= svd2_rotation. Qed.

Lemma varimax_x2_rotates : (varimax svd2 x2 false tol2 10).2 <> 1%:M.
Proof.
  move=> H. have := congr1 (fun A : 'M[rat]_2 => A 0 0) H.
  rewrite varimax_x2 [(_, _).2]/= !mxE => /eqP. by vm_compute.
Qed.

Lemma varimax_rotation_orthogonal_witness :
  (forall s, s \in iterations svd2 x2 tol2 10 (start rat 2).1 (start rat 2).2 ->
             orthogonal s.1) /\
  orthogonal (varimax svd2 x2 false tol2 10).2.
Proof.
  exact: (@varimax_rotation_orthogonal rat 2 2 svd2 x2 tol2 false 10
            svd2_unitary).
Defined.

Lemma varimax_loop_exit_witness :
  let tr := iterations svd2 x2 tol2 10 1%:M 0 in
  let before k := nth (1%:M, 0) ((1%:M, 0) :: tr) k in
  let after k := nth (1%:M, 0) tr k in
  [/\ (0 < size tr <= 10)%nat,
      forall k, (k < size tr)%nat ->
        let: (U, Sv, Vh) := svd2 (rotation_target x2 (before k).1) in
        after k = (U *m Vh, \sum_j Sv 0 j),
      forall k, (k < size tr)%nat ->
        (k.+1 == size tr)
        = ((after k).2 < (before k).2 * (1 + tol2)) || (k.+1 == 10%N),
      0 < (after 0).2 -> (1 < 10)%nat -> (1 < size tr)%nat
    & varimax svd2 x2 false tol2 10
      = (x2 *m (last (1%:M, 0) tr).1, (last (1%:M, 0) tr).1)].
Proof. exact: (@varimax_loop_exit rat 2 2 svd2 x2 tol2 false 10 isT). Defined.

End VarimaxFacts.

(** * Properties of the EOF restoration *)

Module EofFacts.
Import Eof.

Section Shapes.

Variable T : Type.
Variable ops : float_ops T.

Notation array := (array T).

Lemma has_shape_size (m n : nat) (a : array) : has_shape m n a -> size a = m.
Proof. by case/andP => /eqP. Qed.

Lemma has_shape_nth (m n : nat) (a : array) (i : nat) :
  has_shape m n a -> i < m -> size (nth [::] a i) = n.
Proof.
  case/andP => /eqP <- /all_nthP Hall Hi. exact/eqP/Hall.
Qed.

Lemma has_shape_ncols (m n : nat) (a : array) :
  has_shape m n a -> 0 < m -> ncols a = n.
Proof.
  move=> Ha Hm. rewrite /ncols -nth0. exact: has_shape_nth Ha Hm.
Qed.

Lemma has_shape_map (m n : nat) (f : seq T -> seq T) (a : array) :
  (forall r, size (f r) = size r) ->
  has_shape m n a -> has_shape m n [seq f r | r <- a].
Proof.
  move=> Hf /andP [Hm Hall]. rewrite /has_shape size_map Hm /= all_map.
  apply: sub_all Hall => r /=. by rewrite Hf.
Qed.

Lemma has_shape_rev (m n : nat) (a : array) :
  has_shape m n a -> has_shape m n (rev a).
Proof.
  move=> /andP [Hm Hall]. by rewrite /has_shape size_rev Hm all_rev.
Qed.

Lemma size_transpose (a : array) : size (transpose ops a) = ncols a.
Proof. by rewrite /transpose size_map size_iota. Qed.

Lemma has_shape_transpose (a : array) :
  has_shape (ncols a) (size a) (transpose ops a).
Proof.
  rewrite /has_shape size_transpose eqxx /= /transpose all_map.
  apply/allP => j _ /=. by rewrite /column size_map.
Qed.

Lemma has_shape_dot (a b : array) :
  has_shape (size a) (ncols b) (dot ops a b).
Proof.
  rewrite /has_shape /dot size_map eqxx /= all_map.
  apply: sub_all (all_predT a) => r _ /=. by rewrite size_map size_transpose.
Qed.

Lemma has_shape_divide (m n k : nat) (a : array) :
  has_shape m n a -> has_shape m n (divide ops a k).
Proof. apply: has_shape_map => r. by rewrite size_map. Qed.

Lemma has_shape_negate (m n : nat) (a : array) :
  has_shape m n a -> has_shape m n (negate ops a).
Proof. apply: has_shape_map => r. by rewrite size_map. Qed.

Lemma has_shape_times (m n : nat) (a : array) (v : T) :
  has_shape m n a -> has_shape m n (times ops a v).
Proof. apply: has_shape_map => r. by rewrite size_map. Qed.

Lemma has_shape_ones (m n : nat) : has_shape m n (ones ops (m, n)).
Proof.
  by rewrite /has_shape /ones /= size_nseq eqxx all_nseq size_nseq eqxx orbT.
Qed.

Lemma has_shape_take_rows (m n : nat) (x : array) (idx : seq nat) :
  has_shape m n x -> all (fun i => i < m) idx ->
  has_shape (size idx) n (take_rows x idx).
Proof.
  move=> Hx Hidx. rewrite /has_shape /take_rows size_map eqxx /= all_map.
  apply: sub_all Hidx => i /= Hi. by rewrite (has_shape_nth Hx Hi).
Qed.


Lemma stretch_same (A : Type) (k : nat) (s : seq A) :
  size s = k -> stretch k s = Some s.
Proof. by rewrite /stretch => ->; rewrite eqxx. Qed.

Lemma stretch_mismatch (A : Type) (k : nat) (s : seq A) :
  size s != k -> size s != 1 -> stretch k s = None.
Proof.
  rewrite /stretch => /negbTE -> H1.
  by case: s H1 => [|a [|b s]].
Qed.

Lemma stretch_rows_same (m n : nat) (v : array) :
  has_shape m n v -> stretch_rows n v = Some v.
Proof.
  case/andP => _. elim: v => [|r v IH] //= /andP [/eqP Hr Hv].
  by rewrite (stretch_same Hr) (IH Hv).
Qed.

Lemma stretch_rows_mismatch (m l n : nat) (v : array) :
  has_shape m l v -> 0 < m -> l != n -> l != 1 -> stretch_rows n v = None.
Proof.
  case/andP => /eqP <-. case: v => [|r v] //= /andP [/eqP Hr _] _ Hn H1.
  by rewrite stretch_mismatch // Hr.
Qed.

(** Row assignment where the value has the shape of the selected rows. *)
Lemma set_rows_same (m n : nat) (a v : array) (idx : seq nat) :
  has_shape m n a -> 0 < m -> has_shape (size idx) n v ->
  set_rows a idx v
  = Ok (foldl (fun b p => set_nth [::] b p.1 p.2) a (zip idx v)).
Proof.
  move=> Ha Hm Hv. rewrite /set_rows.
  by rewrite (stretch_same (has_shape_size Hv)) (has_shape_ncols Ha Hm)
             (stretch_rows_same Hv).
Qed.

(** Row assignment of a value whose rows are too long or too short. *)
Lemma set_rows_mismatch (m n l : nat) (a v : array) (idx : seq nat) :
  has_shape m n a -> 0 < m -> has_shape (size idx) l v -> 0 < size idx ->
  l != n -> l != 1 ->
  set_rows a idx v = Raise ValueError.
Proof.
  move=> Ha Hm Hv Hidx Hn H1. rewrite /set_rows.
  by rewrite (stretch_same (has_shape_size Hv)) (has_shape_ncols Ha Hm)
             (stretch_rows_mismatch Hv).
Qed.

(** **** The rows kept when one row is missing *)

Lemma size_others (m k : nat) : k < m -> size (others m k) = m.-1.
Proof.
  move=> Hk. rewrite /others size_filter.
  have := count_predC (pred1 k) (iota 0 m).
  rewrite size_iota (count_uniq_mem _ (iota_uniq 0 m)) mem_iota /= add0n Hk.
  rewrite add1n => H. by rewrite -[in RHS]H.
Qed.

Lemma all_others (m k : nat) : all (fun i => i < m) (others m k).
Proof.
  apply/allP => i. by rewrite mem_filter mem_iota add0n => /andP [_ /andP []].
Qed.

Lemma valid_rows_others (m n k : nat) (x : array) :
  only_row_missing ops m n k x -> valid_rows ops x = others m k.
Proof.
  move=> [Hx Hk Hn Hnan Hrest].
  rewrite /valid_rows /others (has_shape_size Hx).
  apply: eq_in_filter => i. rewrite mem_iota add0n /= => Hi.
  case: (altP (i =P k)) => [-> | Hik]; first by rewrite Hnan.
  by rewrite Hrest.
Qed.

Lemma contains_nan_missing (m n k : nat) (x : array) :
  only_row_missing ops m n k x -> contains_nan ops x.
Proof.
  move=> [Hx Hk Hn Hnan _]. rewrite /contains_nan.
  have Hsz := has_shape_size Hx.
  apply/(has_nthP [::]). exists k; first by rewrite Hsz.
  apply/(has_nthP (fnan ops)). exists 0 => //.
  by rewrite (has_shape_nth Hx Hk).
Qed.


Lemma others_cat (m k : nat) :
  k < m -> others m k = iota 0 k ++ iota k.+1 (m - k.+1).
Proof.
  move=> Hk. rewrite /others -{1}(subnKC Hk) iotaD add0n.
  rewrite -{1}[k.+1]addn1 iotaD add0n /= !filter_cat /= eqxx /= cats0.
  congr (_ ++ _); apply/all_filterP/allP => i; rewrite mem_iota.
  - by rewrite add0n /= neq_ltn => ->.
  - by case/andP => Hi _; rewrite neq_ltn Hi orbT.
Qed.

Lemma uniq_others (m k : nat) : uniq (others m k).
Proof. exact/filter_uniq/iota_uniq. Qed.

Lemma mem_others (m k i : nat) : (i \in others m k) = (i != k) && (i < m).
Proof. by rewrite mem_filter mem_iota add0n. Qed.

(** The position of row [i] among the rows other than [k]. *)
Lemma index_others (m k i : nat) :
  k < m -> i < m -> i != k ->
  index i (others m k) = if i < k then i else i.-1.
Proof.
  move=> Hk Hi Hik. rewrite others_cat // index_cat mem_iota add0n /=.
  case: ltnP => Hlt.
  - have Hsz : i < size (iota 0 k) by rewrite size_iota.
    have := index_uniq 0 Hsz (iota_uniq 0 k).
    by rewrite nth_iota // add0n.
  - have Hki : k < i by rewrite ltn_neqAle eq_sym Hik.
    have Hd : i - k.+1 < m - k.+1.
    { apply: ltn_sub2r => //. exact: leq_ltn_trans Hki Hi. }
    have Hsz : i - k.+1 < size (iota k.+1 (m - k.+1)) by rewrite size_iota.
    have := index_uniq 0 Hsz (iota_uniq k.+1 (m - k.+1)).
    rewrite nth_iota // subnKC // size_iota => ->.
    by rewrite -[in RHS](subnKC Hki) addSn.
Qed.

Lemma take_rows_others (m n k : nat) (x : array) :
  has_shape m n x -> k < m -> take_rows x (others m k) = remove_row k x.
Proof.
  move=> Hx Hk. have Hsz := has_shape_size Hx.
  have H1 : k <= size x by rewrite Hsz ltnW.
  have H2 : m - k.+1 <= size x - k.+1 by rewrite Hsz.
  rewrite /take_rows /remove_row others_cat // map_cat.
  rewrite (map_nth_iota0 _ H1) (map_nth_iota _ H2).
  by rewrite (@take_oversize _ (m - k.+1)) ?size_drop ?Hsz.
Qed.

(** Assignment of rows at distinct indices: a row at an index of [idx] is
    the row of the value at that position, any other row is unchanged. *)
Lemma nth_assigned_rows (a v : array) (idx : seq nat) (i : nat) :
  uniq idx -> size v = size idx ->
  nth [::] (foldl (fun b p => set_nth [::] b p.1 p.2) a (zip idx v)) i
  = if i \in idx then nth [::] v (index i idx) else nth [::] a i.
Proof.
  elim: idx a v => [|j idx IH] a [|r v] //= /andP [Hj Huniq] [Hsz].
  rewrite IH // in_cons nth_set_nth /= [j == i]eq_sym.
  case: (altP (i =P j)) => [-> | Hij] /=; first by rewrite (negbTE Hj).
  by case: ifP.
Qed.

(** **** The default pathway on an array with one missing row *)

Variable linalg_eig : array -> vector T * array.
Variable linalg_svd : array -> array * vector T * array.

Notation eof := (eof ops linalg_eig linalg_svd).

Lemma eof_default_missing (m n k : nat) (x : array) :
  only_row_missing ops m n k x -> 1 < m ->
  eof x false false
  = let xx := take_rows x (others m k) in
    let C := divide ops (dot ops xx (transpose ops xx)) n in
    let EOF := [seq rev r | r <- (linalg_eig C).2] in
    let PC := rev (dot ops (transpose ops (linalg_eig C).2) xx) in
    let E := rev (linalg_eig C).1 in
    _EOF <-- set_rows (times ops (ones ops (m, n)) (fnan ops)) (others m k)
               (negate ops EOF) ;;
    _PC <-- set_rows (times ops (ones ops (m, n)) (fnan ops)) (others m k)
              (negate ops PC) ;;
    Ok (_EOF, E, _PC).
Proof.
  move=> Hmiss Hm. have [Hx Hk Hn _ _] := Hmiss.
  have Hm0 : 0 < m by exact: ltnW.
  rewrite /eof; cbv zeta.
  rewrite (contains_nan_missing Hmiss) (valid_rows_others Hmiss).
  have Hxx := has_shape_take_rows Hx (all_others m k).
  rewrite size_others // in Hxx.
  have Hm1 : 0 < m.-1 by rewrite -subn1 subn_gt0.
  rewrite /shape (has_shape_ncols Hxx Hm1).
  rewrite (has_shape_size Hx) (has_shape_ncols Hx Hm0).
  by case: (linalg_eig _) => [E V].
Qed.

Lemma has_shape_covariance (m n : nat) (xx : array) :
  has_shape m n xx -> 0 < m -> 0 < n ->
  has_shape m m (divide ops (dot ops xx (transpose ops xx)) n).
Proof.
  move=> Hxx Hm Hn. apply: has_shape_divide.
  have := has_shape_dot xx (transpose ops xx).
  have Ht := has_shape_transpose xx.
  rewrite (has_shape_ncols Hxx Hm) in Ht.
  by rewrite (has_shape_ncols Ht Hn) !(has_shape_size Hxx).
Qed.

(** C1 (the defect): on an [m x n] array whose row 2 alone is missing,
    with [m - 1] different from [n], the eigenvector matrix of the reduced
    array is [(m-1) x (m-1)] and cannot be assigned to the rows of the
    [m x n] result: [eof] raises instead of returning the restored [EOF]. *)
Theorem eof_missing_row_shape_error (m n : nat) (x : array) :
  eig_square linalg_eig -> only_row_missing ops m n 2 x -> m.-1 != n ->
  eof x false false = Raise ValueError.
Proof.
  move=> Heig Hmiss Hmn. have [Hx Hk Hn _ _] := Hmiss.
  have Hm : 1 < m by exact: ltnW.
  have Hm0 : 0 < m by exact: ltnW.
  have Hm1 : 0 < m.-1 by rewrite -subn1 subn_gt0.
  rewrite (eof_default_missing Hmiss Hm) /=.
  have Hxx := has_shape_take_rows Hx (all_others m 2).
  rewrite size_others // in Hxx.
  have HC := has_shape_covariance Hxx Hm1 Hn.
  have HV := Heig _ _ HC.
  have HEOF : has_shape (size (others m 2)) m.-1
                (negate ops [seq rev r | r <- (linalg_eig
                   (divide ops (dot ops (take_rows x (others m 2))
                      (transpose ops (take_rows x (others m 2)))) n)).2]).
  { rewrite size_others //. apply: has_shape_negate.
    apply: has_shape_map HV => r. by rewrite size_rev. }
  have Ha : has_shape m n (times ops (ones ops (m, n)) (fnan ops))
    by exact/has_shape_times/has_shape_ones.
  rewrite (set_rows_mismatch Ha Hm0 HEOF) //.
  - by rewrite size_others.
  - by rewrite -subn1 -(eqn_add2r 1) subnK // neq_ltn Hk orbT.
Qed.


Lemma contains_nan_reduced (m n k : nat) (x : array) :
  only_row_missing ops m n k x ->
  contains_nan ops (take_rows x (others m k)) = false.
Proof.
  move=> [Hx Hk Hn _ Hrest]. apply/negbTE.
  rewrite /contains_nan /take_rows has_map. apply/hasPn => i.
  rewrite mem_others => /andP [Hik Hi] /=.
  apply/negP => /(has_nthP (fnan ops)) [j].
  rewrite (has_shape_nth Hx Hi) => Hj. apply/negP. exact: Hrest.
Qed.

(** The default pathway on an array without missing values. *)
Lemma eof_default_clean (m n : nat) (xx : array) :
  has_shape m n xx -> 0 < m -> contains_nan ops xx = false ->
  eof xx false false
  = let C := divide ops (dot ops xx (transpose ops xx)) n in
    Ok ([seq rev r | r <- (linalg_eig C).2], rev (linalg_eig C).1,
        rev (dot ops (transpose ops (linalg_eig C).2) xx)).
Proof.
  move=> Hxx Hm Hclean. rewrite /eof; cbv zeta.
  rewrite Hclean /shape (has_shape_ncols Hxx Hm).
  by case: (linalg_eig _) => [E V].
Qed.

Lemma nth_negate (a : array) (i : nat) :
  nth [::] (negate ops a) i = [seq fneg ops e | e <- nth [::] a i].
Proof.
  rewrite /negate. case: (ltnP i (size a)) => Hi.
  - by rewrite (nth_map [::]).
  - by rewrite !nth_default // size_map.
Qed.

Lemma nth_missing_filled (m n i : nat) :
  i < m ->
  nth [::] (times ops (ones ops (m, n)) (fnan ops)) i
  = nseq n (fmul ops (fone ops) (fnan ops)).
Proof.
  move=> Hi. by rewrite /times /ones /= !map_nseq nth_nseq Hi.
Qed.

(** Where the reduced array is square (an [(n+1) x n] input with row 2
    missing) the restoration is well-formed: [eof] returns, row 2 of [EOF]
    and of [PC] is filled with the missing marker, and every other row is
    the negation of the corresponding row of the result on the reduced
    array. *)
Theorem eof_missing_row_restored (n : nat) (x : array) :
  eig_square linalg_eig -> only_row_missing ops n.+1 n 2 x ->
  exists EOF E PC _EOF _PC,
    [/\ eof (remove_row 2 x) false false = Ok (EOF, E, PC),
        eof x false false = Ok (_EOF, E, _PC),
        nth [::] _EOF 2 = nseq n (fmul ops (fone ops) (fnan ops)) /\
        nth [::] _PC 2 = nseq n (fmul ops (fone ops) (fnan ops)),
        forall i, i < n.+1 -> i != 2 ->
          nth [::] _EOF i
          = [seq fneg ops e | e <- nth [::] EOF (if i < 2 then i else i.-1)]
      & forall i, i < n.+1 -> i != 2 ->
          nth [::] _PC i
          = [seq fneg ops e | e <- nth [::] PC (if i < 2 then i else i.-1)]].
Proof.
  move=> Heig Hmiss. have [Hx Hk Hn _ _] := Hmiss.
  have Hm : 1 < n.+1 by exact: ltnW.
  have Hidx : size (others n.+1 2) = n by rewrite size_others.
  have Hxx := has_shape_take_rows Hx (all_others n.+1 2).
  rewrite Hidx in Hxx.
  have HC := has_shape_covariance Hxx Hn Hn.
  have HV := Heig _ _ HC.
  set xx := take_rows x (others n.+1 2) in Hxx HC HV.
  set C := divide ops _ _ in HC HV.
  pose EOF := [seq rev r | r <- (linalg_eig C).2].
  pose PC := rev (dot ops (transpose ops (linalg_eig C).2) xx).
  have HEOF : has_shape (size (others n.+1 2)) n (negate ops EOF).
  { rewrite Hidx. apply: has_shape_negate.
    apply: has_shape_map HV => r. by rewrite size_rev. }
  have HPC : has_shape (size (others n.+1 2)) n (negate ops PC).
  { rewrite Hidx. apply/has_shape_negate/has_shape_rev.
    have := has_shape_dot (transpose ops (linalg_eig C).2) xx.
    by rewrite size_transpose (has_shape_ncols HV Hn) (has_shape_ncols Hxx Hn). }
  have Ha : has_shape n.+1 n (times ops (ones ops (n.+1, n)) (fnan ops))
    by exact/has_shape_times/has_shape_ones.
  exists EOF, (rev (linalg_eig C).1), PC.
  eexists; eexists; split.
  - rewrite -(take_rows_others Hx Hk).
    by rewrite (eof_default_clean Hxx Hn (contains_nan_reduced Hmiss)).
  - rewrite (eof_default_missing Hmiss Hm) /=.
    rewrite (set_rows_same Ha _ HEOF) // (set_rows_same Ha _ HPC) //=.
  - rewrite !nth_assigned_rows ?uniq_others ?(has_shape_size HEOF)
            ?(has_shape_size HPC) // mem_others eqxx /=.
    by rewrite nth_missing_filled.
  - move=> i Hi Hi2.
    rewrite nth_assigned_rows ?uniq_others ?(has_shape_size HEOF) //.
    by rewrite mem_others Hi2 Hi index_others // nth_negate.
  - move=> i Hi Hi2.
    rewrite nth_assigned_rows ?uniq_others ?(has_shape_size HPC) //.
    by rewrite mem_others Hi2 Hi index_others // nth_negate.
Qed.

End Shapes.

Lemma abs_eig_square : eig_square abs_eig.
Proof.
  move=> k C /andP [/eqP HC _].
  by rewrite /abs_eig /has_shape /= size_nseq HC eqxx all_nseq size_nseq eqxx
             orbT.
Qed.

Lemma x33_only_row_missing : only_row_missing abs_ops 3 3 2 x33.
Proof. by split=> // -[|[|[|i]]] // [|[|[|j]]]. Qed.

Lemma eof_missing_row_shape_error_witness :
  eof abs_ops abs_eig abs_svd x33 false false = Raise ValueError.
Proof.
  exact: (@eof_missing_row_shape_error _ abs_ops abs_eig abs_svd 3 3 x33
            abs_eig_square x33_only_row_missing isT).
Defined.

End EofFacts.

(** * Further properties of the formulas, the rotation and the EOF pathways *)

Module ThermoExtra.

Import Thermo Parcel ThermoFacts.
Local Open Scope R_scope.

(** **** Powers *)

Lemma frac_part_between (y : R) (k : Z) :
  IZR k < y < IZR (k + 1) -> frac_part y <> 0.
Proof.
  move=> [Hlo Hhi] H0.
  have Hy : y = IZR (Int_part y) by move: H0; rewrite /frac_part; lra.
  rewrite Hy in Hlo Hhi.
  have := lt_IZR _ _ Hlo. have := lt_IZR _ _ Hhi. lia.
Qed.

Lemma Rpower_one (y : R) : Rpower 1 y = 1.
Proof. by rewrite /Rpower ln_1 Rmult_0_r exp_0. Qed.

(** A negative base with an exponent that is not an integer. *)
Lemma fpow_negative (x y : R) (k : Z) :
  x < 0 -> IZR k < y < IZR (k + 1) -> fpow x y = Raise ValueError.
Proof.
  move=> Hx Hy. rewrite /fpow.
  case: (Rlt_dec 0 x) => [?|?]; first lra.
  case: (Req_dec_T x 0) => [?|?]; first lra.
  case: (Req_dec_T (frac_part y) 0) => // H0.
  by case: (frac_part_between Hy).
Qed.

Lemma fpow_zero (y : R) : 0 < y -> fpow 0 y = Ok 0.
Proof.
  move=> Hy. rewrite /fpow.
  case: (Rlt_dec 0 0) => [?|?]; first lra.
  case: (Req_dec_T 0 0) => [?|H]; last by case: H.
  case: (Rlt_dec y 0) => [?|?]; first lra.
  case: (Req_dec_T y 0) => [Hy0|//]. lra.
Qed.

(** The two exponents of the standard atmosphere. *)
Lemma std_exponent_bounds : 0 < Rd * 6.5 / g < 1.
Proof. rewrite /Rd /R_gas /Md /g. lra. Qed.

Lemma std_exponent_inv_bounds : 5 < g / (Rd * 6.5) < 6.
Proof.
  have HRd : 0.28 < Rd < 0.29 by rewrite /Rd /R_gas /Md; lra.
  have Hpos : 0 < Rd * 6.5 by lra.
  rewrite /g; split.
  - apply: (Rmult_lt_reg_r (Rd * 6.5)) => //.
    rewrite /Rdiv Rmult_assoc Rinv_l; lra.
  - apply: (Rmult_lt_reg_r (Rd * 6.5)) => //.
    rewrite /Rdiv Rmult_assoc Rinv_l; lra.
Qed.

(** **** Standard atmosphere *)

Lemma pressure_to_height_std_Ok (p : R) :
  0 < p ->
  pressure_to_height_std p
  = Ok (288 / 6.5 * (1 - Rpower (p / 1013.25) (Rd * 6.5 / g)) * 1000).
Proof.
  move=> Hp. have Hq : 0 < p / 1013.25 by apply: Rdiv_lt_0_compat; lra.
  by rewrite /pressure_to_height_std (fpow_Ok _ Hq).
Qed.

Lemma height_to_pressure_std_Ok (h : R) :
  h * 6.5 < 288000 ->
  height_to_pressure_std h
  = Ok (1013.25 * Rpower (1 - 6.5 / 288 * (h * 0.001)) (g / (Rd * 6.5))).
Proof.
  move=> Hh. have Hb : 0 < 1 - 6.5 / 288 * (h * 0.001) by lra.
  by rewrite /height_to_pressure_std (fpow_Ok _ Hb).
Qed.

(** Below the height where the standard temperature profile reaches zero
    (288000 / 6.5 m), converting a height to a pressure and back returns
    the height. *)
Theorem height_round_trip (h : R) :
  h * 6.5 < 288000 ->
  (p <-- height_to_pressure_std h ;; pressure_to_height_std p) = Ok h.
Proof.
  move=> Hh. rewrite height_to_pressure_std_Ok // bind_Ok.
  set b := 1 - _. have Hb : 0 < b by rewrite /b; lra.
  set P := Rpower b _. have HP : 0 < P by apply: exp_pos.
  have Hp : 0 < 1013.25 * P by apply: Rmult_lt_0_compat => //; lra.
  rewrite (pressure_to_height_std_Ok Hp).
  have -> : 1013.25 * P / 1013.25 = P by lra.
  rewrite /P Rpower_mult [X in Rpower _ X]Rmult_comm std_exponent_inverse.
  rewrite Rpower_1 // /b.
  congr Ok. lra.
Qed.

Lemma height_round_trip_witness :
  (p <-- height_to_pressure_std 5000 ;; pressure_to_height_std p) = Ok 5000.
Proof. apply: (@height_round_trip 5000). lra. Defined.

(** The height is a strictly decreasing function of the pressure, and it
    is zero at the reference pressure 1013.25 hPa. *)
Theorem pressure_to_height_std_decreasing (p1 p2 : R) :
  0 < p1 < p2 ->
  exists h1 h2 : R,
    [/\ pressure_to_height_std p1 = Ok h1, pressure_to_height_std p2 = Ok h2,
        h2 < h1 & pressure_to_height_std 1013.25 = Ok 0].
Proof.
  move=> [H1 H12]. have [Hk _] := std_exponent_bounds.
  rewrite !pressure_to_height_std_Ok; try lra.
  do 2 eexists; split; [by [] | by [] | |].
  - have : Rpower (p1 / 1013.25) (Rd * 6.5 / g)
           < Rpower (p2 / 1013.25) (Rd * 6.5 / g).
    { apply: Rlt_Rpower_l => //. lra. }
    lra.
  - have -> : 1013.25 / 1013.25 = 1 by lra.
    rewrite Rpower_one. congr Ok. lra.
Qed.

Lemma pressure_to_height_std_decreasing_witness :
  exists h1 h2 : R,
    [/\ pressure_to_height_std 500 = Ok h1, pressure_to_height_std 850 = Ok h2,
        h2 < h1 & pressure_to_height_std 1013.25 = Ok 0].
Proof. apply: (@pressure_to_height_std_decreasing 500 850). lra. Defined.

(** A negative pressure raises [ValueError] (a fractional power of a
    negative number); the pressure zero gives the height 288000 / 6.5 m. *)
Theorem pressure_to_height_std_nonpositive (p : R) :
  p < 0 ->
  pressure_to_height_std p = Raise ValueError /\
  pressure_to_height_std 0 = Ok (288 / 6.5 * 1000).
Proof.
  move=> Hp. rewrite /pressure_to_height_std.
  have [Hk0 Hk1] := std_exponent_bounds. split.
  - have Hneg : p / 1013.25 < 0 by lra.
    have Hk : IZR 0 < Rd * 6.5 / g < IZR (0 + 1) by split; simpl; lra.
    by rewrite (fpow_negative Hneg Hk).
  - have -> : 0 / 1013.25 = 0 by lra.
    rewrite (fpow_zero Hk0) bind_Ok. congr Ok. lra.
Qed.

Lemma pressure_to_height_std_nonpositive_witness :
  pressure_to_height_std (-1) = Raise ValueError /\
  pressure_to_height_std 0 = Ok (288 / 6.5 * 1000).
Proof. apply: (@pressure_to_height_std_nonpositive (-1)). lra. Defined.

(** Below 288000 / 6.5 m the pressure is positive and strictly decreasing
    with height, and it is the reference pressure 1013.25 hPa at height 0. *)
Theorem height_to_pressure_std_decreasing (h1 h2 : R) :
  h1 < h2 -> h2 * 6.5 < 288000 ->
  exists p1 p2 : R,
    [/\ height_to_pressure_std h1 = Ok p1, height_to_pressure_std h2 = Ok p2,
        0 < p2 < p1 & height_to_pressure_std 0 = Ok 1013.25].
Proof.
  move=> H12 H2. have [Hk _] := std_exponent_inv_bounds.
  rewrite !height_to_pressure_std_Ok; try lra.
  do 2 eexists; split; [by [] | by [] | |].
  - have Hlt : Rpower (1 - 6.5 / 288 * (h2 * 0.001)) (g / (Rd * 6.5))
               < Rpower (1 - 6.5 / 288 * (h1 * 0.001)) (g / (Rd * 6.5)).
    { apply: Rlt_Rpower_l; first lra. lra. }
    have Hpos : 0 < Rpower (1 - 6.5 / 288 * (h2 * 0.001)) (g / (Rd * 6.5))
      by apply: exp_pos.
    lra.
  - have -> : 1 - 6.5 / 288 * (0 * 0.001) = 1 by lra.
    rewrite Rpower_one. congr Ok. lra.
Qed.

Lemma height_to_pressure_std_decreasing_witness :
  exists p1 p2 : R,
    [/\ height_to_pressure_std 1000 = Ok p1,
        height_to_pressure_std 2000 = Ok p2,
        0 < p2 < p1 & height_to_pressure_std 0 = Ok 1013.25].
Proof. apply: (@height_to_pressure_std_decreasing 1000 2000); lra. Defined.

(** Above 288000 / 6.5 m the conversion raises [ValueError]; at that
    height the pressure is zero. *)
Theorem height_to_pressure_std_ceiling (h : R) :
  288000 < h * 6.5 ->
  height_to_pressure_std h = Raise ValueError /\
  height_to_pressure_std (288000 / 6.5) = Ok 0.
Proof.
  move=> Hh. rewrite /height_to_pressure_std.
  have [Hk0 Hk1] := std_exponent_inv_bounds. split.
  - have Hneg : 1 - 6.5 / 288 * (h * 0.001) < 0 by lra.
    have Hk : IZR 5 < g / (Rd * 6.5) < IZR (5 + 1) by split; simpl; lra.
    by rewrite (fpow_negative Hneg Hk).
  - have -> : 1 - 6.5 / 288 * (288000 / 6.5 * 0.001) = 0 by lra.
    have Hk : 0 < g / (Rd * 6.5) by lra.
    rewrite (fpow_zero Hk) bind_Ok. congr Ok. lra.
Qed.

Lemma height_to_pressure_std_ceiling_witness :
  height_to_pressure_std 50000 = Raise ValueError /\
  height_to_pressure_std (288000 / 6.5) = Ok 0.
Proof. apply: (@height_to_pressure_std_ceiling 50000). lra. Defined.

(** **** Vapor pressure, dewpoint and humidity *)

(** The dewpoint quotient [243.5 v / (17.67 - v)]. *)
Lemma dewpoint_Ok (e : R) :
  0 < e -> ln (e / 6.112) <> 17.67 ->
  dewpoint e = Ok (243.5 * ln (e / 6.112) / (17.67 - ln (e / 6.112))).
Proof.
  move=> He Hne. rewrite /dewpoint /sat_pressure_0c.
  have Hq : 0 < e / 6.112 by apply: Rdiv_lt_0_compat; lra.
  have Hd : 17.67 - ln (e / 6.112) <> 0 by lra.
  by rewrite (flog_Ok Hq) bind_Ok (fdiv_Ok _ Hd).
Qed.

(** The saturation vapor pressure at the dewpoint of a vapor pressure [e]
    (shifted to Kelvin) is [e]: the Bolton formula inverts [dewpoint]. *)
Theorem saturation_vapor_pressure_inverts_dewpoint (e : R) :
  0 < e -> ln (e / 6.112) <> 17.67 ->
  (d <-- dewpoint e ;; saturation_vapor_pressure (d + 273.15)) = Ok e.
Proof.
  move=> He Hne. rewrite dewpoint_Ok // bind_Ok.
  set v := ln (e / 6.112). have Hv : 17.67 - v <> 0 by rewrite /v; lra.
  have Hq : 0 < e / 6.112 by apply: Rdiv_lt_0_compat; lra.
  have Hden : 243.5 * v / (17.67 - v) + 273.15 - 29.65
              = 243.5 * 17.67 / (17.67 - v).
  { decimals. field. move: Hv; decimals; lra. }
  have HT : 243.5 * v / (17.67 - v) + 273.15 <> 29.65.
  { move=> H. have : 243.5 * 17.67 / (17.67 - v) = 0 by rewrite -Hden; lra.
    move/Rmult_integral => [|]; first lra.
    exact: Rinv_neq_0_compat. }
  rewrite (saturation_vapor_pressure_Ok HT) /bolton Hden.
  have -> : 17.67 * (243.5 * v / (17.67 - v) + 273.15 - 273.15)
            / (243.5 * 17.67 / (17.67 - v)) = v.
  { decimals. field. move: Hv; decimals; lra. }
  rewrite /v exp_ln // /sat_pressure_0c. congr Ok. lra.
Qed.

Lemma saturation_vapor_pressure_inverts_dewpoint_witness :
  (d <-- dewpoint 6.112 ;; saturation_vapor_pressure (d + 273.15)) = Ok 6.112.
Proof.
  apply: (@saturation_vapor_pressure_inverts_dewpoint 6.112); first lra.
  have -> : 6.112 / 6.112 = 1 by lra.
  rewrite ln_1. lra.
Defined.

Lemma dewpoint_of_saturation (T : R) :
  T <> 29.65 -> dewpoint (sat_pressure_0c * exp (bolton T)) = Ok (T - 273.15).
Proof.
  move=> HT. have Hne := bolton_gap_neq0 HT.
  have Hne1 : 17.67 - (ln 1 + bolton T) <> 0 by rewrite ln_1 Rplus_0_l.
  have -> : sat_pressure_0c * exp (bolton T)
            = 1 * (sat_pressure_0c * exp (bolton T)) by ring.
  by rewrite (dewpoint_scaled Rlt_0_1 Hne1) ln_1 Rplus_0_l dewpoint_at_bolton.
Qed.

Lemma dewpoint_nonpositive (e : R) : e <= 0 -> dewpoint e = Raise ValueError.
Proof.
  move=> He. rewrite /dewpoint /sat_pressure_0c /flog.
  case: (Rlt_dec 0 (e / 6.112)) => [H|//]. lra.
Qed.

(** [dewpoint] raises [ValueError] on a vapor pressure that is not
    positive, and [ZeroDivisionError] at the pole [e = 6.112 exp 17.67]. *)
Theorem dewpoint_errors (e : R) :
  e <= 0 ->
  dewpoint e = Raise ValueError /\
  dewpoint (6.112 * exp 17.67) = Raise ZeroDivisionError.
Proof.
  move=> He. split; first exact: dewpoint_nonpositive.
  rewrite /dewpoint /sat_pressure_0c.
  - have -> : 6.112 * exp 17.67 / 6.112 = exp 17.67 by lra.
    rewrite (flog_Ok (exp_pos _)) bind_Ok ln_exp.
    have -> : 17.67 - 17.67 = 0 by lra.
    exact: fdiv_zero.
Qed.

Lemma dewpoint_errors_witness :
  dewpoint 0 = Raise ValueError /\
  dewpoint (6.112 * exp 17.67) = Raise ZeroDivisionError.
Proof. apply: (@dewpoint_errors 0). lra. Defined.

Lemma bolton_increasing (T1 T2 : R) :
  29.65 < T1 < T2 -> bolton T1 < bolton T2.
Proof.
  move=> [H1 H12].
  have HT1 : T1 <> 29.65 by lra. have HT2 : T2 <> 29.65 by lra.
  have G1 := bolton_gap HT1. have G2 := bolton_gap HT2.
  have : 17.67 * 243.5 / (T2 - 29.65) < 17.67 * 243.5 / (T1 - 29.65).
  { rewrite /Rdiv. apply: Rmult_lt_compat_l; first lra.
    apply: Rinv_lt_contravar; last lra.
    apply: Rmult_lt_0_compat; lra. }
  lra.
Qed.

(** From 36 K on (above the pole of the Bolton formula and the range
    next to it where the exponential underflows) the saturation vapor
    pressure is positive and strictly increasing with temperature. *)
Theorem saturation_vapor_pressure_increasing (T1 T2 : R) :
  36 <= T1 < T2 ->
  exists e1 e2 : R,
    [/\ saturation_vapor_pressure T1 = Ok e1,
        saturation_vapor_pressure T2 = Ok e2 & 0 < e1 < e2].
Proof.
  move=> [H36 H12]. have H1 : 29.65 < T1 by lra.
  have H : 29.65 < T1 < T2 by [].
  have HT1 : T1 <> 29.65 by lra. have HT2 : T2 <> 29.65 by lra.
  rewrite (saturation_vapor_pressure_Ok HT1) (saturation_vapor_pressure_Ok HT2).
  do 2 eexists; split; [by [] | by [] |].
  have := exp_increasing _ _ (bolton_increasing H).
  have := exp_pos (bolton T1). rewrite /sat_pressure_0c. lra.
Qed.

Lemma saturation_vapor_pressure_increasing_witness :
  exists e1 e2 : R,
    [/\ saturation_vapor_pressure 280 = Ok e1,
        saturation_vapor_pressure 300 = Ok e2 & 0 < e1 < e2].
Proof. apply: (@saturation_vapor_pressure_increasing 280 300). lra. Defined.

(** At a fixed temperature of at least 36 K, on relative humidities in
    [[1e-15, 1]], the dewpoint is strictly increasing with the relative
    humidity, and at saturation ([rh = 1]) it is the temperature in degrees
    Celsius. *)
Theorem dewpoint_rh_increasing (T rh1 rh2 : R) :
  36 <= T -> 1e-15 <= rh1 < rh2 -> rh2 <= 1 ->
  exists d1 d2 : R,
    [/\ dewpoint_rh T rh1 = Ok d1, dewpoint_rh T rh2 = Ok d2, d1 < d2 &
        dewpoint_rh T 1 = Ok (T - 273.15)].
Proof.
  move=> H36 [Hlo H12] H2. have HT : 29.65 < T by lra.
  have H1 : 0 < rh1 by lra. have HT' : T <> 29.65 by lra.
  have Hgap : 0 < 17.67 - bolton T.
  { rewrite (bolton_gap HT'). apply: Rdiv_lt_0_compat; lra. }
  have Hl1 : ln rh1 < ln rh2 by apply: ln_increasing.
  have Hl2 : ln rh2 <= 0 by apply: ln_le_0; lra.
  have Hrh2 : 0 < rh2 by lra.
  have Hn1 : 17.67 - (ln rh1 + bolton T) <> 0 by lra.
  have Hn2 : 17.67 - (ln rh2 + bolton T) <> 0 by lra.
  have Hn0 : 17.67 - (ln 1 + bolton T) <> 0 by rewrite ln_1; lra.
  rewrite (dewpoint_rh_Ok HT' H1 Hn1) (dewpoint_rh_Ok HT' Hrh2 Hn2).
  rewrite (dewpoint_rh_Ok HT' Rlt_0_1 Hn0).
  do 2 eexists; split; [by [] | by [] | |].
  - set v1 := ln rh1 + bolton T. set v2 := ln rh2 + bolton T.
    have Hv : v1 < v2 by rewrite /v1 /v2; lra.
    have Hd1 : 0 < 17.67 - v1 by rewrite /v1; lra.
    have Hd2 : 0 < 17.67 - v2 by rewrite /v2; lra.
    apply: (Rmult_lt_reg_r ((17.67 - v1) * (17.67 - v2))).
    + exact: Rmult_lt_0_compat.
    + have -> : 243.5 * v1 / (17.67 - v1) * ((17.67 - v1) * (17.67 - v2))
                = 243.5 * v1 * (17.67 - v2).
      { decimals. field. move: Hd1; decimals; lra. }
      have -> : 243.5 * v2 / (17.67 - v2) * ((17.67 - v1) * (17.67 - v2))
                = 243.5 * v2 * (17.67 - v1).
      { decimals. field. move: Hd2; decimals; lra. }
      nra.
  - by rewrite ln_1 Rplus_0_l dewpoint_at_bolton.
Qed.

Lemma dewpoint_rh_increasing_witness :
  exists d1 d2 : R,
    [/\ dewpoint_rh 300 0.5 = Ok d1, dewpoint_rh 300 0.8 = Ok d2, d1 < d2 &
        dewpoint_rh 300 1 = Ok (300 - 273.15)].
Proof. apply: (@dewpoint_rh_increasing 300 0.5 0.8); lra. Defined.

(** From 36 K on [dewpoint_rh] raises [ValueError] on a relative humidity
    that is not positive; at the pole [T = 29.65] it raises
    [ZeroDivisionError] whatever the relative humidity. *)
Theorem dewpoint_rh_errors (T rh rh' : R) :
  36 <= T -> rh <= 0 ->
  dewpoint_rh T rh = Raise ValueError /\
  dewpoint_rh 29.65 rh' = Raise ZeroDivisionError.
Proof.
  move=> H36 Hrh. have HT : T <> 29.65 by lra. split.
  - rewrite /dewpoint_rh (saturation_vapor_pressure_Ok HT) bind_Ok.
    have He : rh * (sat_pressure_0c * exp (bolton T)) <= 0.
    { have := exp_pos (bolton T). rewrite /sat_pressure_0c. nra. }
    exact: dewpoint_nonpositive.
  - by rewrite /dewpoint_rh saturation_vapor_pressure_singular.
Qed.

Lemma dewpoint_rh_errors_witness :
  dewpoint_rh 300 0 = Raise ValueError /\
  dewpoint_rh 29.65 0.5 = Raise ZeroDivisionError.
Proof. apply: (@dewpoint_rh_errors 300 0 0.5); lra. Defined.

(** **** Potential temperature *)

Lemma potential_temperature_Ok (p T : R) :
  0 < p -> potential_temperature p T = Ok (T * Rpower (1000 / p) kappa).
Proof.
  move=> Hp. have Hne : p <> 0 by lra.
  have Hq : 0 < 1000 / p by apply: Rdiv_lt_0_compat; lra.
  by rewrite /potential_temperature /P0 (fdiv_Ok _ Hne) bind_Ok (fpow_Ok _ Hq).
Qed.

Lemma kappa_bounds : IZR 0 < kappa < IZR (0 + 1).
Proof. rewrite /kappa /=. lra. Qed.

(** For a positive temperature the potential temperature is strictly
    decreasing with pressure, and at the reference pressure 1000 hPa it is
    the temperature itself: it exceeds the temperature below 1000 hPa and
    is less above. *)
Theorem potential_temperature_decreasing (p1 p2 T : R) :
  0 < p1 < p2 -> 0 < T ->
  exists th1 th2 : R,
    [/\ potential_temperature p1 T = Ok th1,
        potential_temperature p2 T = Ok th2, th2 < th1 &
        potential_temperature 1000 T = Ok T].
Proof.
  move=> [H1 H12] HT. have [Hk _] := kappa_bounds.
  rewrite !potential_temperature_Ok; try lra.
  do 2 eexists; split; [by [] | by [] | |].
  - apply: Rmult_lt_compat_l => //. apply: Rlt_Rpower_l; first by move: Hk.
    split; first by apply: Rdiv_lt_0_compat; lra.
    rewrite /Rdiv. apply: Rmult_lt_compat_l; first lra.
    apply: Rinv_lt_contravar => //. apply: Rmult_lt_0_compat; lra.
  - have -> : 1000 / 1000 = 1 by lra.
    rewrite Rpower_one. congr Ok. lra.
Qed.

Lemma potential_temperature_decreasing_witness :
  exists th1 th2 : R,
    [/\ potential_temperature 800 273 = Ok th1,
        potential_temperature 1000 273 = Ok th2, th2 < th1 &
        potential_temperature 1000 273 = Ok 273].
Proof. apply: (@potential_temperature_decreasing 800 1000 273); lra. Defined.

(** [potential_temperature] raises [ZeroDivisionError] at pressure zero and
    [ValueError] on a negative pressure. *)
Theorem potential_temperature_errors (p T : R) :
  p < 0 ->
  potential_temperature p T = Raise ValueError /\
  potential_temperature 0 T = Raise ZeroDivisionError.
Proof.
  move=> Hp. rewrite /potential_temperature /P0. split.
  - have Hne : p <> 0 by lra.
    have Hq : 1000 / p < 0.
    { rewrite /Rdiv. have := Rinv_lt_0_compat _ Hp. nra. }
    by rewrite (fdiv_Ok _ Hne) bind_Ok (fpow_negative Hq kappa_bounds).
  - by rewrite fdiv_zero.
Qed.

Lemma potential_temperature_errors_witness :
  potential_temperature (-800) 273 = Raise ValueError /\
  potential_temperature 0 273 = Raise ZeroDivisionError.
Proof. apply: (@potential_temperature_errors (-800) 273). lra. Defined.

(** **** Mixing ratio and vapor pressure *)

(** The mixing ratio of the vapor pressure computed from a mixing ratio
    [r] is [r]: [mixing_ratio] inverts [vapor_pressure]. *)
Theorem mixing_ratio_inverts_vapor_pressure (p r : R) :
  p <> 0 -> epsilon + r <> 0 ->
  (e <-- vapor_pressure p r ;; mixing_ratio e p) = Ok r.
Proof.
  move=> Hp Hr. have Heps := epsilon_pos.
  rewrite /vapor_pressure (fdiv_Ok _ Hr) bind_Ok /mixing_ratio.
  have Hd : p - p * r / (epsilon + r) = p * epsilon / (epsilon + r) by field.
  have Hne : p - p * r / (epsilon + r) <> 0.
  { rewrite Hd. apply: Rmult_integral_contrapositive_currified; first nra.
    exact: Rinv_neq_0_compat. }
  rewrite (fdiv_Ok _ Hne) Hd. congr Ok. field. split; lra.
Qed.

Lemma mixing_ratio_inverts_vapor_pressure_witness :
  (e <-- vapor_pressure 1000 0.01 ;; mixing_ratio e 1000) = Ok 0.01.
Proof.
  have Heps := epsilon_pos.
  apply: (@mixing_ratio_inverts_vapor_pressure 1000 0.01); lra.
Defined.

(** For a positive total pressure and a mixing ratio that is not negative
    the vapor pressure lies in [[0, p)]; a partial pressure in [(0, p)]
    has a positive mixing ratio. *)
Theorem vapor_pressure_bounds (p r e : R) :
  0 < p -> 0 <= r -> 0 < e < p ->
  (exists v : R, vapor_pressure p r = Ok v /\ 0 <= v < p) /\
  (exists w : R, mixing_ratio e p = Ok w /\ 0 < w).
Proof.
  move=> Hp Hr [He Hep]. have Heps := epsilon_pos. split.
  - have Hd : epsilon + r <> 0 by lra.
    rewrite /vapor_pressure (fdiv_Ok _ Hd). eexists; split; first by [].
    have Hpos : 0 < epsilon + r by lra.
    split.
    + apply: Rmult_le_pos; first nra.
      left. exact: Rinv_0_lt_compat.
    + apply: (Rmult_lt_reg_r (epsilon + r)) => //.
      have -> : p * r / (epsilon + r) * (epsilon + r) = p * r by field.
      nra.
  - have Hd : p - e <> 0 by lra.
    rewrite /mixing_ratio (fdiv_Ok _ Hd). eexists; split; first by [].
    apply: Rdiv_lt_0_compat; nra.
Qed.

Lemma vapor_pressure_bounds_witness :
  (exists v : R, vapor_pressure 1000 0.01 = Ok v /\ 0 <= v < 1000) /\
  (exists w : R, mixing_ratio 10 1000 = Ok w /\ 0 < w).
Proof. apply: (@vapor_pressure_bounds 1000 0.01 10); lra. Defined.

(** From a temperature of at least 36 K to the saturation mixing ratio at
    a total pressure above the saturation vapor pressure, to the vapor
    pressure, to the dewpoint: the chain returns the temperature in degrees
    Celsius (the dewpoint of saturated air is its temperature). *)
Theorem saturation_chain (p T es : R) :
  36 <= T -> saturation_vapor_pressure T = Ok es -> es < p ->
  (r <-- saturation_mixing_ratio p T ;;
   e <-- vapor_pressure p r ;;
   dewpoint e) = Ok (T - 273.15).
Proof.
  move=> H36 Hes Hlt. have HT : T <> 29.65 by lra.
  have Hes0 : 0 < es.
  { move: Hes. rewrite (saturation_vapor_pressure_Ok HT) => -[<-].
    have := exp_pos (bolton T). rewrite /sat_pressure_0c. nra. }
  have Hpe : p <> es by lra. have Hp : p <> 0 by lra.
  have Heps := epsilon_pos.
  have Hd : p - es <> 0 by lra.
  rewrite /saturation_mixing_ratio Hes bind_Ok /mixing_ratio (fdiv_Ok _ Hd).
  rewrite bind_Ok.
  have Hsum : epsilon + epsilon * es / (p - es) = epsilon * p / (p - es)
    by field.
  have Hne : epsilon + epsilon * es / (p - es) <> 0.
  { rewrite Hsum. apply: Rmult_integral_contrapositive_currified; first nra.
    exact: Rinv_neq_0_compat. }
  rewrite /vapor_pressure (fdiv_Ok _ Hne) bind_Ok.
  have -> : p * (epsilon * es / (p - es)) / (epsilon + epsilon * es / (p - es))
            = es.
  { rewrite Hsum. field. split; [lra | split; lra]. }
  move: Hes. rewrite (saturation_vapor_pressure_Ok HT) => -[<-].
  exact: dewpoint_of_saturation.
Qed.

Lemma saturation_chain_witness :
  (r <-- saturation_mixing_ratio 1000 273.15 ;;
   e <-- vapor_pressure 1000 r ;;
   dewpoint e) = Ok (273.15 - 273.15).
Proof.
  apply: (@saturation_chain 1000 273.15 6.112); try lra.
  exact: saturation_vapor_pressure_0c.
Defined.

(** **** Dry adiabatic lapse *)

Lemma dry_lapse_element (p p0 T : R) :
  0 < p -> 0 < p0 ->
  amul T (apow (adiv p p0) kappa) = Some (T * Rpower (p / p0) kappa).
Proof.
  move=> Hp Hp0. rewrite /adiv.
  case: (Req_dec_T p0 0) => [H|H]; first lra.
  have Hq : 0 < p / p0 by apply: Rdiv_lt_0_compat.
  by rewrite /apow /= (fpow_Ok _ Hq).
Qed.

(** [dry_lapse] returns one temperature per pressure level, and the
    temperature at the first level, when that pressure is not zero, is the
    starting temperature. *)
Theorem dry_lapse_start (p0 T : R) (ps : seq R) :
  p0 <> 0 ->
  exists ts : seq afloat,
    dry_lapse (p0 :: ps) T = Ok (Some T :: ts) /\ size ts = size ps.
Proof.
  move=> Hp0.
  exists [seq amul T (apow (adiv p p0) kappa) | p <- ps].
  split; last by rewrite size_map.
  rewrite /dry_lapse /= /adiv.
  case: (Req_dec_T p0 0) => [//|H] /=.
  have -> : p0 / p0 = 1 by field.
  rewrite (fpow_Ok _ Rlt_0_1) Rpower_one /=.
  by have -> : T * 1 = T by ring.
Qed.

Lemma dry_lapse_start_witness :
  exists ts : seq afloat,
    dry_lapse [:: 1000; 900; 800] 300 = Ok (Some 300 :: ts) /\
    size ts = size [:: 900; 800].
Proof. apply: (@dry_lapse_start 1000 300 [:: 900; 800]). lra. Defined.

Lemma In_nth (s : seq R) (i : nat) :
  (i < size s)%nat -> List.In (nth 0 s i) s.
Proof.
  elim: s i => [|a s IH] [|i] //=; first by left.
  by rewrite ltnS => /IH; right.
Qed.

(** Along [dry_lapse] on positive pressures the potential temperature is
    conserved: at every level it is the potential temperature of the
    starting point. *)
Theorem dry_lapse_conserves_potential_temperature
    (p0 T : R) (ps : seq R) (i : nat) :
  0 < p0 -> (forall p, List.In p ps -> 0 < p) -> (i < size (p0 :: ps))%nat ->
  exists (ts : seq afloat) (t : R),
    [/\ dry_lapse (p0 :: ps) T = Ok ts, nth None ts i = Some t &
        potential_temperature (nth 0 (p0 :: ps) i) t
        = potential_temperature p0 T].
Proof.
  move=> Hp0 Hps Hi. rewrite /dry_lapse.
  have Hall : forall p, List.In p (p0 :: ps) -> 0 < p.
  { by move=> p /= [<- | /Hps]. }
  set p := nth 0 (p0 :: ps) i.
  have Hp : 0 < p by apply: Hall; apply: In_nth.
  exists [seq amul T (apow (adiv q p0) kappa) | q <- p0 :: ps].
  exists (T * Rpower (p / p0) kappa). split=> //.
  - by rewrite (nth_map 0) // -/p dry_lapse_element.
  - rewrite !potential_temperature_Ok //. congr Ok.
    have Hq : 0 < p / p0 by apply: Rdiv_lt_0_compat.
    have Hr : 0 < 1000 / p by apply: Rdiv_lt_0_compat; lra.
    rewrite Rmult_assoc Rpower_mult_distr //. congr (_ * Rpower _ _).
    field. split; lra.
Qed.

Lemma dry_lapse_conserves_potential_temperature_witness :
  exists (ts : seq afloat) (t : R),
    [/\ dry_lapse [:: 1000; 900] 300 = Ok ts, nth None ts 1 = Some t &
        potential_temperature (nth 0 [:: 1000; 900] 1) t
        = potential_temperature 1000 300].
Proof.
  apply: (@dry_lapse_conserves_potential_temperature 1000 300 [:: 900] 1) => //.
  - lra.
  - move=> p /= [<- | []]. lra.
Defined.

(** **** Equivalent potential temperature *)

(** For a saturated parcel (the dewpoint equals the temperature) the
    lifting condensation temperature is the temperature itself, and the
    equivalent potential temperature is the potential temperature at the
    dry-air pressure [p - e] times the latent-heat factor. *)
Theorem equivalent_potential_temperature_saturated (p t e r : R) :
  t <> 29.65 -> t <> 56 -> t <> 0 ->
  saturation_vapor_pressure t = Ok e -> e < p ->
  saturation_mixing_ratio p t = Ok r ->
  exists th : R,
    potential_temperature (p - e) t = Ok th /\
    equivalent_potential_temperature p t t
    = Ok (th * exp ((3036 / t - 1.78) * r * (1 + 0.448 * r))).
Proof.
  move=> H29 H56 H0 He Hep Hr.
  have Hpe : 0 < p - e by lra.
  rewrite (potential_temperature_Ok _ Hpe). eexists; split; first by [].
  rewrite /equivalent_potential_temperature He Hr !bind_Ok.
  have Hd56 : t - 56 <> 0 by lra.
  rewrite (fdiv_Ok _ Hd56) bind_Ok (fdiv_Ok _ H0) bind_Ok.
  have -> : t / t = 1 by field.
  rewrite (flog_Ok Rlt_0_1) bind_Ok ln_1.
  have Hs : 1 / (t - 56) + 0 / 800 = / (t - 56) by field.
  have Hsne : 1 / (t - 56) + 0 / 800 <> 0.
  { rewrite Hs. exact: Rinv_neq_0_compat. }
  rewrite (fdiv_Ok _ Hsne) bind_Ok.
  have Htl : 56 + 1 / (1 / (t - 56) + 0 / 800) = t by field.
  rewrite Htl.
  have Hpe' : p - e <> 0 by lra.
  have Hc : 0 < 1000 / (p - e) by apply: Rdiv_lt_0_compat; lra.
  rewrite (fdiv_Ok _ Hpe') bind_Ok (fpow_Ok _ Hc) bind_Ok.
  rewrite (fdiv_Ok _ H0) bind_Ok.
  have -> : t / t = 1 by field.
  rewrite (fpow_Ok _ Rlt_0_1) bind_Ok Rpower_one (fdiv_Ok _ H0) bind_Ok.
  congr Ok. ring.
Qed.

Lemma equivalent_potential_temperature_saturated_witness :
  exists th : R,
    potential_temperature (1000 - 6.112) 273.15 = Ok th /\
    equivalent_potential_temperature 1000 273.15 273.15
    = Ok (th * exp ((3036 / 273.15 - 1.78)
                    * (epsilon * 6.112 / (1000 - 6.112))
                    * (1 + 0.448 * (epsilon * 6.112 / (1000 - 6.112))))).
Proof.
  apply: (@equivalent_potential_temperature_saturated 1000 273.15 6.112);
    try lra.
  - exact: saturation_vapor_pressure_0c.
  - rewrite /saturation_mixing_ratio saturation_vapor_pressure_0c bind_Ok.
    rewrite /mixing_ratio fdiv_Ok //. lra.
Defined.

End ThermoExtra.

Module VarimaxExtra.
Import Varimax VarimaxFacts.
Import Order.Theory GRing.Theory Num.Theory.
Local Open Scope ring_scope.

Section Rotation.

Variable F : realFieldType.
Variables p nc : nat.
Variable svd : 'M[F]_nc -> 'M[F]_nc * 'rV[F]_nc * 'M[F]_nc.
Variable x : 'M[F]_(p, nc).
Variable tol : F.

Lemma final_orthogonal (it_max : nat) :
  svd_unitary svd ->
  orthogonal (last (start F nc)
                (iterations svd x tol it_max (start F nc).1 (start F nc).2)).1.
Proof.
  move=> Hsvd.
  have Hall := @iterations_orthogonal _ _ _ svd x tol it_max
                 (start F nc).1 (start F nc).2 Hsvd.
  have := mem_last (start F nc)
            (iterations svd x tol it_max (start F nc).1 (start F nc).2).
  rewrite inE => /orP [/eqP -> | /Hall //]. exact: orthogonal1.
Qed.

(** With an orthogonal decomposition the rotation preserves the products of
    the rows of the loadings, [r * r^T = x * x^T] (so the communalities),
    it can be undone, [r * TT^T = x], and the columns of [TT] are
    orthonormal as well, [TT^T * TT = 1]. *)
Theorem varimax_preserves_gram (normalize : bool) (it_max : nat) :
  svd_unitary svd ->
  let: (r, TT) := varimax svd x normalize tol it_max in
  [/\ r *m r^T = x *m x^T, r *m TT^T = x & TT^T *m TT = 1%:M].
Proof.
  move=> Hsvd. rewrite /varimax.
  set TT := (last _ _).1.
  have HTT : TT *m TT^T = 1%:M by exact: final_orthogonal.
  split.
  - by rewrite trmx_mul mulmxA -(mulmxA x) HTT mulmx1.
  - by rewrite -mulmxA HTT mulmx1.
  - exact: mulmx1C.
Qed.

End Rotation.

Lemma varimax_preserves_gram_witness :
  let: (r, TT) := varimax svd2 x2 false tol2 10 in
  [/\ r *m r^T = x2 *m x2^T, r *m TT^T = x2 & TT^T *m TT = 1%:M].
Proof.
  exact: (@varimax_preserves_gram rat 2 2 svd2 x2 tol2 false 10 svd2_unitary).
Defined.

End VarimaxExtra.

Module EofExtra.
Import Eof EofFacts EofContracts.

Section Restoration.

Variable T : Type.
Variable ops : float_ops T.
Variable linalg_eig : array T -> vector T * array T.
Variable linalg_svd : array T -> array T * vector T * array T.

Notation array := (array T).
Notation eof := (eof ops linalg_eig linalg_svd).

Lemma valid_rows_bound (x : array) :
  all (fun i => i < size x) (valid_rows ops x).
Proof.
  apply/allP => i. by rewrite mem_filter mem_iota add0n => /andP [_ /andP []].
Qed.

Lemma valid_rows_uniq (x : array) : uniq (valid_rows ops x).
Proof. exact/filter_uniq/iota_uniq. Qed.

Lemma contains_nan_rows (m n : nat) (x : array) :
  has_shape m n x -> contains_nan ops x -> 0 < m.
Proof.
  move=> /andP [/eqP <- _]. by case: x.
Qed.

(** The default pathway on an array with missing values, written on the
    rows it keeps. *)
Lemma eof_default_nan (m n : nat) (x : array) :
  has_shape m n x -> contains_nan ops x -> 0 < size (valid_rows ops x) ->
  eof x false false
  = let idx := valid_rows ops x in
    let xx := take_rows x idx in
    let C := divide ops (dot ops xx (transpose ops xx)) n in
    let EOF := [seq rev r | r <- (linalg_eig C).2] in
    let PC := rev (dot ops (transpose ops (linalg_eig C).2) xx) in
    let E := rev (linalg_eig C).1 in
    _EOF <-- set_rows (times ops (ones ops (m, n)) (fnan ops)) idx
               (negate ops EOF) ;;
    _PC <-- set_rows (times ops (ones ops (m, n)) (fnan ops)) idx
              (negate ops PC) ;;
    Ok (_EOF, E, _PC).
Proof.
  move=> Hx Hnan Hk. have Hm := contains_nan_rows Hx Hnan.
  rewrite /eof; cbv zeta. rewrite Hnan.
  have Hidx := valid_rows_bound x. rewrite (has_shape_size Hx) in Hidx.
  have Hxx := has_shape_take_rows Hx Hidx.
  rewrite /shape (has_shape_ncols Hxx Hk).
  rewrite (has_shape_size Hx) (has_shape_ncols Hx Hm).
  by case: (linalg_eig _) => [E V].
Qed.

(** When an array has missing values, its valid rows (those whose column 0
    is not missing) carry no missing value and are as many as the columns,
    [eof] returns: each valid row of [EOF] and of [PC] is the negated row
    that the decomposition of the valid rows gives at its position, and
    every other row is filled with the missing marker, whichever rows and
    however many are missing. *)
Theorem eof_restores_valid_rows (m n : nat) (x : array) :
  eig_square linalg_eig -> has_shape m n x -> 0 < n ->
  contains_nan ops x ->
  contains_nan ops (take_rows x (valid_rows ops x)) = false ->
  size (valid_rows ops x) = n ->
  let idx := valid_rows ops x in
  let xx := take_rows x idx in
  let C := divide ops (dot ops xx (transpose ops xx)) n in
  let EOF := [seq rev r | r <- (linalg_eig C).2] in
  let PC := rev (dot ops (transpose ops (linalg_eig C).2) xx) in
  exists _EOF _PC,
    [/\ eof x false false = Ok (_EOF, rev (linalg_eig C).1, _PC),
        forall i, i < m ->
          nth [::] _EOF i
          = if i \in idx then [seq fneg ops e | e <- nth [::] EOF (index i idx)]
            else nseq n (fmul ops (fone ops) (fnan ops))
      & forall i, i < m ->
          nth [::] _PC i
          = if i \in idx then [seq fneg ops e | e <- nth [::] PC (index i idx)]
            else nseq n (fmul ops (fone ops) (fnan ops))].
Proof.
  move=> Heig Hx Hn Hnan _ Hk idx xx C EOF PC.
  have Hm := contains_nan_rows Hx Hnan.
  have Hk0 : 0 < size (valid_rows ops x) by rewrite Hk.
  have Hidx := valid_rows_bound x. rewrite (has_shape_size Hx) in Hidx.
  have Hxx : has_shape n n xx.
  { rewrite -{1}Hk. exact: has_shape_take_rows Hx Hidx. }
  have HC : has_shape n n C by exact: has_shape_covariance.
  have HV := Heig _ _ HC.
  have HEOF : has_shape (size idx) n (negate ops EOF).
  { rewrite /idx Hk. apply: has_shape_negate.
    apply: has_shape_map HV => r. by rewrite size_rev. }
  have HPC : has_shape (size idx) n (negate ops PC).
  { rewrite /idx Hk. apply/has_shape_negate/has_shape_rev.
    have := has_shape_dot ops (transpose ops (linalg_eig C).2) xx.
    by rewrite size_transpose (has_shape_ncols HV Hn) (has_shape_ncols Hxx Hn). }
  have Ha : has_shape m n (times ops (ones ops (m, n)) (fnan ops))
    by exact/has_shape_times/has_shape_ones.
  do 2 eexists; split.
  - rewrite (eof_default_nan Hx Hnan Hk0) /=.
    by rewrite (set_rows_same Ha Hm HEOF) (set_rows_same Ha Hm HPC).
  - move=> i Hi.
    rewrite nth_assigned_rows ?valid_rows_uniq ?(has_shape_size HEOF) //.
    by rewrite nth_negate nth_missing_filled.
  - move=> i Hi.
    rewrite nth_assigned_rows ?valid_rows_uniq ?(has_shape_size HPC) //.
    by rewrite nth_negate nth_missing_filled.
Qed.

(** When an array has missing values, its valid rows carry no missing
    value and their number is at least two and differs from the number of
    columns, the eigenvector matrix of the valid rows does not fit the rows
    of the result and [eof] raises, whichever rows are missing. *)
Theorem eof_valid_rows_shape_error (m n : nat) (x : array) :
  eig_square linalg_eig -> has_shape m n x -> 0 < n ->
  contains_nan ops x ->
  contains_nan ops (take_rows x (valid_rows ops x)) = false ->
  1 < size (valid_rows ops x) -> size (valid_rows ops x) != n ->
  eof x false false = Raise ValueError.
Proof.
  move=> Heig Hx Hn Hnan _ Hk1 Hkn.
  have Hm := contains_nan_rows Hx Hnan.
  have Hk0 : 0 < size (valid_rows ops x) by exact: ltnW.
  rewrite (eof_default_nan Hx Hnan Hk0) /=.
  set idx := valid_rows ops x in Hk1 Hkn Hk0 *.
  have Hidx := valid_rows_bound x. rewrite (has_shape_size Hx) in Hidx.
  have Hxx := has_shape_take_rows Hx Hidx.
  have HC := has_shape_covariance ops Hxx Hk0 Hn.
  have HV := Heig _ _ HC.
  set EOF := [seq rev r | r <- _].
  have HEOF : has_shape (size idx) (size idx) (negate ops EOF).
  { apply: has_shape_negate. apply: has_shape_map HV => r. by rewrite size_rev. }
  have Ha : has_shape m n (times ops (ones ops (m, n)) (fnan ops))
    by exact/has_shape_times/has_shape_ones.
  rewrite (set_rows_mismatch Ha Hm HEOF) //.
  by rewrite neq_ltn Hk1 orbT.
Qed.


(** *** The loops of the two other pathways *)

Lemma has_shape_zeros (m n : nat) : has_shape m n (zeros ops m n).
Proof. by rewrite /has_shape /zeros size_nseq eqxx all_nseq size_nseq eqxx orbT. Qed.

Lemma getitem_zeros (m n p q : nat) :
  p < m -> q < n -> getitem ops (zeros ops m n) p q = fzero ops.
Proof. move=> Hp Hq. by rewrite /getitem /zeros nth_nseq Hp nth_nseq Hq. Qed.

Lemma setitem_inside (m n : nat) (a : array) (i j : nat) (v : T) :
  has_shape m n a -> i < m -> j < n ->
  exists a',
    [/\ setitem ops a i j v = Ok a', has_shape m n a'
      & forall p q, getitem ops a' p q
                    = if (p == i) && (q == j) then v else getitem ops a p q].
Proof.
  move=> Ha Hi Hj. have Hm : 0 < m by exact: leq_ltn_trans Hi.
  rewrite /setitem (has_shape_size Ha) (has_shape_ncols Ha Hm) Hi Hj /=.
  eexists; split; first by [].
  - apply/andP; split.
    + rewrite size_set_nth (has_shape_size Ha). apply/eqP/maxn_idPr. exact: Hi.
    + apply/(all_nthP [::]) => p. rewrite size_set_nth (has_shape_size Ha).
      move/maxn_idPr: (Hi) => -> Hp. rewrite nth_set_nth /=.
      case: (p =P i) => [_|_]; last by rewrite (has_shape_nth Ha Hp).
      rewrite size_set_nth (has_shape_nth Ha Hi). apply/eqP/maxn_idPr. exact: Hj.
  - move=> p q. rewrite /getitem nth_set_nth /=.
    case: (p =P i) => [->|_] //=. by rewrite nth_set_nth /=.
Qed.

(** The loop [for i in range(..): C[i,i] = f(i)], started at [s]. *)
Lemma diagonal_loop (m n : nat) (f : nat -> T) (k s : nat) (a : array) :
  has_shape m n a -> s + k <= m -> s + k <= n ->
  exists C,
    [/\ foldM (fun C i => setitem ops C i i (f i)) a (iota s k) = Ok C,
        has_shape m n C
      & forall p q, getitem ops C p q
                    = if (p == q) && (s <= p < s + k) then f p
                      else getitem ops a p q].
Proof.
  elim: k s a => [|k IH] s a Ha Hm Hn /=.
  - exists a; split=> // p q. by rewrite addn0; case: (leqP s p) => _; rewrite /= andbF.
  - rewrite addnS in Hm Hn.
    have Hsm : s < m by exact: leq_ltn_trans (leq_addr k s) Hm.
    have Hsn : s < n by exact: leq_ltn_trans (leq_addr k s) Hn.
    have [a1 [-> Ha1 Hget1]] := setitem_inside (f s) Ha Hsm Hsn.
    have Hm1 : s.+1 + k <= m by rewrite addSn.
    have Hn1 : s.+1 + k <= n by rewrite addSn.
    rewrite /=. have [C [-> HC Hget]] := IH s.+1 a1 Ha1 Hm1 Hn1.
    exists C; split=> // p q. rewrite Hget Hget1 addSn addnS.
    case: (p =P q) => [<-|Hpq] /=; last first.
    { case: (p =P s) => [Hps|_] //=. case: (q =P s) => [Hqs|_] //.
      by case: Hpq; rewrite Hps Hqs. }
    rewrite andbb [s <= p]leq_eqVlt [s == p]eq_sym.
    case: (p =P s) => [->|_] /=; last by [].
    by rewrite ltnn /= ltnS leq_addr.
Qed.

Lemma setcol_inside (m n : nat) (a : array) (j : nat) (v : vector T) :
  has_shape m n a -> 0 < m -> j < n -> size v = m ->
  exists a',
    [/\ setcol ops a j v = Ok a', has_shape m n a'
      & forall p q, p < m ->
          getitem ops a' p q
          = if q == j then nth (fnan ops) v p else getitem ops a p q].
Proof.
  move=> Ha Hm Hj Hv.
  rewrite /setcol (has_shape_ncols Ha Hm) Hj (has_shape_size Ha) (stretch_same Hv).
  have Hz : size (zip a v) = m by rewrite size_zip (has_shape_size Ha) Hv minnn.
  eexists; split; first by [].
  - apply/andP; split; first by rewrite size_map Hz.
    apply/(all_nthP [::]) => p. rewrite size_map Hz => Hp.
    rewrite (nth_map ([::], fnan ops)) ?Hz // nth_zip ?(has_shape_size Ha) //=.
    rewrite size_set_nth (has_shape_nth Ha Hp). apply/eqP/maxn_idPr. exact: Hj.
  - move=> p q Hp. rewrite /getitem.
    rewrite (nth_map ([::], fnan ops)) ?Hz // nth_zip ?(has_shape_size Ha) //=.
    by rewrite nth_set_nth /=.
Qed.

(** The loop [for i in range(..): EOF[:,i] = EOFa[:,i]/np.sqrt(abs(E[i]))],
    started at [s]. *)
Lemma column_loop (m n : nat) (EOFa : array) (E : vector T) (k s : nat)
    (a : array) :
  has_shape m n a -> has_shape m n EOFa -> 0 < m -> size E = n ->
  s + k <= n ->
  exists EOF,
    [/\ foldM (fun EOF i =>
                 c <-- getcol ops EOFa i ;;
                 e <-- getvec ops E i ;;
                 setcol ops EOF i
                   [seq fdiv ops v (fsqrt ops (fabs ops e)) | v <- c])
              a (iota s k) = Ok EOF,
        has_shape m n EOF
      & forall p q, p < m ->
          getitem ops EOF p q
          = if s <= q < s + k
            then fdiv ops (getitem ops EOFa p q)
                   (fsqrt ops (fabs ops (nth (fnan ops) E q)))
            else getitem ops a p q].
Proof.
  move=> Ha HEOFa Hm HE.
  elim: k s a Ha => [|k IH] s a Ha Hn /=.
  - exists a; split=> // p q _. by rewrite addn0; case: (leqP s q).
  - rewrite addnS in Hn.
    have Hsn : s < n by exact: leq_ltn_trans (leq_addr k s) Hn.
    have Hc : getcol ops EOFa s = Ok (column ops EOFa s)
      by rewrite /getcol (has_shape_ncols HEOFa Hm) Hsn.
    have He : getvec ops E s = Ok (nth (fnan ops) E s)
      by rewrite /getvec HE Hsn.
    rewrite Hc /= He /=.
    have [|a1 [-> Ha1 Hget1]] := setcol_inside (j := s)
      (v := [seq fdiv ops v (fsqrt ops (fabs ops (nth (fnan ops) E s)))
            | v <- column ops EOFa s]) Ha Hm Hsn.
    + by rewrite !size_map (has_shape_size HEOFa).
    have Hn1 : s.+1 + k <= n by rewrite addSn.
    rewrite /=. have [EOF [Hloop HEOF Hget]] := IH s.+1 a1 Ha1 Hn1.
    exists EOF; split; [exact: Hloop | exact: HEOF |] => p q Hp.
    rewrite Hget // Hget1 // addSn addnS.
    rewrite [s <= q]leq_eqVlt [s == q]eq_sym.
    case: (q =P s) => [->|_] /=; last by [].
    rewrite ltnn /= ltnS leq_addr.
    rewrite (nth_map (fzero ops)) ?size_map ?(has_shape_size HEOFa) //.
    by rewrite /column (nth_map [::]) ?(has_shape_size HEOFa).
Qed.

(** On an array without missing values the SVD pathway returns, whatever
    [transform] is: [EOF] is the [m x m] matrix [U], [E] holds the
    [min(m, n)] squared singular values over [n], and [PC] is the product
    [C V] of shape [m x n], where [C] carries the singular values on its
    diagonal and zero elsewhere.  No index of the loop is out of range. *)
Theorem eof_svd_clean (m n : nat) (x : array) (transform : bool) :
  svd_shapes linalg_svd -> has_shape m n x -> 0 < m ->
  contains_nan ops x = false ->
  let U := (linalg_svd x).1.1 in
  let Sv := (linalg_svd x).1.2 in
  let V := (linalg_svd x).2 in
  exists C,
    [/\ eof x true transform
        = Ok (U, [seq fdiv ops (fmul ops s s) (fof_nat ops n) | s <- Sv],
              dot ops C V),
        forall p q, p < m -> q < n ->
          getitem ops C p q
          = if p == q then nth (fnan ops) Sv p else fzero ops,
        has_shape m m U, size Sv = minn m n
      & has_shape m n (dot ops C V)].
Proof.
  move=> Hsvd Hx Hm Hnan U Sv V.
  have [HU HS HV] := Hsvd _ _ _ Hm Hx.
  have [||C [Hloop HC Hget]] :=
    diagonal_loop (nth (fnan ops) Sv) (k := size Sv) (s := 0)
      (has_shape_zeros m n).
  - by rewrite add0n HS geq_minl.
  - by rewrite add0n HS geq_minr.
  exists C; split=> //.
  - rewrite /eof; cbv zeta. rewrite Hnan /shape (has_shape_size Hx)
      (has_shape_ncols Hx Hm).
    rewrite -/U -/Sv -/V in Hloop *.
    rewrite (surjective_pairing (linalg_svd x))
            (surjective_pairing (linalg_svd x).1) /=.
    by rewrite Hloop.
  - move=> p q Hp Hq. rewrite Hget add0n leq0n /= getitem_zeros //.
    case: (p =P q) => [Hpq|_] //=. case: (ltnP p (size Sv)) => [_|HpS] //.
    move: HpS. rewrite HS geq_min => /orP [Hmp|Hnp].
    + by move: Hmp; rewrite leqNgt Hp.
    + by move: Hnp; rewrite leqNgt Hpq Hq.
  - have HnV : ncols V = n.
    { case: (posnP n) => [Hn0|Hn]; last exact: has_shape_ncols HV Hn.
      move: HV. rewrite Hn0 => /andP [/eqP/size0nil HV0 _].
      by rewrite /V in HV0 *; rewrite HV0. }
    have := has_shape_dot ops C V. by rewrite (has_shape_size HC) HnV.
Qed.

(** On an array without missing values the transformed pathway returns:
    [EOF] is [m x n], its column [q] is column [q] of [x] times the
    reversed eigenvectors, divided by the square root of the absolute
    value of the eigenvalue [E[q]]; [E] holds the [n] eigenvalues reversed
    and [PC] is [n x n].  No index of the loop is out of range. *)
Theorem eof_transform_clean (m n : nat) (x : array) :
  eig_shapes linalg_eig -> has_shape m n x -> 0 < m -> 0 < n ->
  contains_nan ops x = false ->
  let C := dot ops (transpose ops x) x in
  let E := rev (linalg_eig C).1 in
  let EOFa := dot ops x [seq rev r | r <- (linalg_eig C).2] in
  exists EOF,
    [/\ eof x false true = Ok (EOF, E, dot ops (transpose ops EOF) x),
        has_shape m n EOF,
        forall p q, p < m -> q < n ->
          getitem ops EOF p q
          = fdiv ops (getitem ops EOFa p q)
              (fsqrt ops (fabs ops (nth (fnan ops) E q))),
        size E = n
      & has_shape n n (dot ops (transpose ops EOF) x)].
Proof.
  move=> Heig Hx Hm Hn Hnan C E EOFa.
  have HC : has_shape n n C.
  { have := has_shape_dot ops (transpose ops x) x.
    by rewrite size_transpose (has_shape_ncols Hx Hm). }
  have [HE1 HV] := Heig _ _ HC.
  have HE : size E = n by rewrite size_rev.
  have HEOFa : has_shape m n EOFa.
  { have := has_shape_dot ops x [seq rev r | r <- (linalg_eig C).2].
    rewrite (has_shape_size Hx) (@has_shape_ncols _ n n) //.
    apply: has_shape_map HV => r. by rewrite size_rev. }
  have [|EOF [Hloop HEOF Hget]] :=
    column_loop (k := n) (s := 0) (has_shape_zeros m n) HEOFa Hm HE.
  - by rewrite add0n.
  exists EOF; split=> //.
  - rewrite /eof; cbv zeta. rewrite Hnan /shape (has_shape_size Hx)
      (has_shape_ncols Hx Hm).
    rewrite -/C (surjective_pairing (linalg_eig C)) /=.
    rewrite -/E -/EOFa in Hloop *. by rewrite Hloop.
  - move=> p q Hp Hq. by rewrite Hget // add0n leq0n Hq.
  - have := has_shape_dot ops (transpose ops EOF) x.
    by rewrite size_transpose (has_shape_ncols HEOF Hm) (has_shape_ncols Hx Hm).
Qed.

(** On an array without missing values the default pathway returns the
    reversed eigen-decomposition of the [m x m] matrix [x x^T / n]:
    [EOF] is [m x m], [E] has [m] entries and [PC] is [m x n]. *)
Theorem eof_default_clean_shapes (m n : nat) (x : array) :
  eig_shapes linalg_eig -> has_shape m n x -> 0 < m -> 0 < n ->
  contains_nan ops x = false ->
  exists EOF E PC,
    [/\ eof x false false = Ok (EOF, E, PC),
        has_shape m m EOF, size E = m & has_shape m n PC].
Proof.
  move=> Heig Hx Hm Hn Hnan.
  have HC := has_shape_covariance ops Hx Hm Hn.
  set C := divide ops _ n in HC.
  have [HE HV] := Heig _ _ HC.
  exists [seq rev r | r <- (linalg_eig C).2], (rev (linalg_eig C).1),
         (rev (dot ops (transpose ops (linalg_eig C).2) x)).
  split; first exact: eof_default_clean Hx Hm Hnan.
  - apply: has_shape_map HV => r. by rewrite size_rev.
  - by rewrite size_rev.
  - apply: has_shape_rev.
    have := has_shape_dot ops (transpose ops (linalg_eig C).2) x.
    by rewrite size_transpose (has_shape_ncols HV Hm) (has_shape_ncols Hx Hm).
Qed.

End Restoration.

(** *** The contracts and the theorems on the two-point floats *)

Lemma abs_eig_shapes : eig_shapes abs_eig.
Proof.
  move=> k C /andP [/eqP HC _].
  by rewrite /abs_eig /has_shape /= !size_nseq HC eqxx all_nseq size_nseq eqxx
             orbT.
Qed.

Lemma abs_svd_shapes : svd_shapes abs_svd.
Proof.
  move=> m n a Hm Ha.
  rewrite /abs_svd /= (has_shape_size Ha) (has_shape_ncols Ha Hm).
  by rewrite /has_shape !size_nseq !eqxx !all_nseq !size_nseq !eqxx !orbT.
Qed.

Lemma eof_restores_valid_rows_witness :
  let x := [:: [:: Num; Num; Num]; [:: NaN; Num; Num]; [:: Num; Num; Num];
               [:: NaN; Num; Num]; [:: Num; Num; Num]] in
  let xx := take_rows x (valid_rows abs_ops x) in
  let C := divide abs_ops (dot abs_ops xx (transpose abs_ops xx)) 3 in
  let EOF := [seq rev r | r <- (abs_eig C).2] in
  let PC := rev (dot abs_ops (transpose abs_ops (abs_eig C).2) xx) in
  exists _EOF _PC,
    [/\ eof abs_ops abs_eig abs_svd x false false
        = Ok (_EOF, rev (abs_eig C).1, _PC),
        forall i, i < 5 ->
          nth [::] _EOF i
          = if i \in valid_rows abs_ops x
            then [seq fneg abs_ops e
                 | e <- nth [::] EOF (index i (valid_rows abs_ops x))]
            else nseq 3 (fmul abs_ops (fone abs_ops) (fnan abs_ops))
      & forall i, i < 5 ->
          nth [::] _PC i
          = if i \in valid_rows abs_ops x
            then [seq fneg abs_ops e
                 | e <- nth [::] PC (index i (valid_rows abs_ops x))]
            else nseq 3 (fmul abs_ops (fone abs_ops) (fnan abs_ops))].
Proof.
  exact: (@eof_restores_valid_rows _ abs_ops abs_eig abs_svd 5 3
            [:: [:: Num; Num; Num]; [:: NaN; Num; Num]; [:: Num; Num; Num];
                [:: NaN; Num; Num]; [:: Num; Num; Num]]
            abs_eig_square isT isT isT erefl erefl).
Defined.

Lemma eof_valid_rows_shape_error_witness :
  eof abs_ops abs_eig abs_svd
    [:: [:: NaN; Num]; [:: Num; Num]; [:: Num; Num]; [:: Num; Num];
        [:: NaN; Num]] false false
  = Raise ValueError.
Proof.
  exact: (@eof_valid_rows_shape_error _ abs_ops abs_eig abs_svd 5 2
            [:: [:: NaN; Num]; [:: Num; Num]; [:: Num; Num]; [:: Num; Num];
                [:: NaN; Num]]
            abs_eig_square isT isT isT erefl isT isT).
Defined.

Lemma eof_svd_clean_witness :
  let x := [:: [:: Num; Num; Num]; [:: Num; Num; Num]] in
  exists C,
    [/\ eof abs_ops abs_eig abs_svd x true false
        = Ok ((abs_svd x).1.1,
              [seq fdiv abs_ops (fmul abs_ops s s) (fof_nat abs_ops 3)
              | s <- (abs_svd x).1.2],
              dot abs_ops C (abs_svd x).2),
        forall p q, p < 2 -> q < 3 ->
          getitem abs_ops C p q
          = if p == q then nth (fnan abs_ops) (abs_svd x).1.2 p
            else fzero abs_ops,
        has_shape 2 2 (abs_svd x).1.1, size (abs_svd x).1.2 = minn 2 3
      & has_shape 2 3 (dot abs_ops C (abs_svd x).2)].
Proof.
  exact: (@eof_svd_clean _ abs_ops abs_eig abs_svd 2 3
            [:: [:: Num; Num; Num]; [:: Num; Num; Num]] false
            abs_svd_shapes isT isT erefl).
Defined.

Lemma eof_transform_clean_witness :
  let x := [:: [:: Num; Num]; [:: Num; Num]; [:: Num; Num]] in
  let C := dot abs_ops (transpose abs_ops x) x in
  let E := rev (abs_eig C).1 in
  let EOFa := dot abs_ops x [seq rev r | r <- (abs_eig C).2] in
  exists EOF,
    [/\ eof abs_ops abs_eig abs_svd x false true
        = Ok (EOF, E, dot abs_ops (transpose abs_ops EOF) x),
        has_shape 3 2 EOF,
        forall p q, p < 3 -> q < 2 ->
          getitem abs_ops EOF p q
          = fdiv abs_ops (getitem abs_ops EOFa p q)
              (fsqrt abs_ops (fabs abs_ops (nth (fnan abs_ops) E q))),
        size E = 2
      & has_shape 2 2 (dot abs_ops (transpose abs_ops EOF) x)].
Proof.
  exact: (@eof_transform_clean _ abs_ops abs_eig abs_svd 3 2
            [:: [:: Num; Num]; [:: Num; Num]; [:: Num; Num]]
            abs_eig_shapes isT isT isT erefl).
Defined.

Lemma eof_default_clean_shapes_witness :
  exists EOF E PC,
    [/\ eof abs_ops abs_eig abs_svd
          [:: [:: Num; Num; Num]; [:: Num; Num; Num]] false false
        = Ok (EOF, E, PC),
        has_shape 2 2 EOF, size E = 2 & has_shape 2 3 PC].
Proof.
  exact: (@eof_default_clean_shapes _ abs_ops abs_eig abs_svd 2 3
            [:: [:: Num; Num; Num]; [:: Num; Num; Num]]
            abs_eig_shapes isT isT isT erefl).
Defined.

End EofExtra.
